(** * Live location tracking: the publisher hook, the Store and the map view

    A shallow embedding of [src/hooks/useLocationTracking.ts] and of the
    marker effect of [src/components/LiveTrackingMap.tsx], together with the
    [live_locations] table they talk to.

    The hook's callbacks become functions on a [world] record: the React
    state of the hook (once as the last render closed over it, once as the
    setters left it), the device's position watches, the table, the realtime
    channel and what the user was shown.  What the outside answers to one
    call (who is signed in, the clock, whether the request fails) is an
    explicit [ambient] argument.  Every callback is run to completion: the
    interleaving of two callbacks at an [await] is not modelled. *)

From Stdlib Require Import PrimFloat ZArith.
From stdpp Require Import gmap strings list fin_maps.

Open Scope Z_scope.

(** ** Values *)

(** A JavaScript number is an IEEE-754 double.  The code only copies
    coordinates around, no arithmetic is done on them. *)
Definition number : Type := PrimFloat.float.

(** A numeric property that may be missing ([undefined]) or [null]. *)
Inductive optnum : Type :=
  | Undefined
  | Null
  | Num (x : number).

(** [v ?? undefined] *)
Definition nullish_undefined (v : optnum) : optnum :=
  match v with
  | Undefined | Null => Undefined
  | Num x => Num x
  end.

Definition is_absent (v : optnum) : Prop := v = Undefined ∨ v = Null.

Definition is_num (v : optnum) : Prop := ∃ x, v = Num x.

(** The string a guard [if (!s) return;] lets through: [null] and the empty
    string are falsy. *)
Definition truthy (s : option string) : option string :=
  match s with
  | Some EmptyString => None
  | other => other
  end.

(** The [coords] of a [GeolocationPosition] handed to the success callback. *)
Module Coords.
Record t : Type := mk {
  latitude : number;
  longitude : number;
  accuracy : optnum;
  heading : optnum;
  speed : optnum;
}.
End Coords.

(** [interface LocationData] *)
Module LocationData.
Record t : Type := mk {
  latitude : number;
  longitude : number;
  accuracy : optnum;
  heading : optnum;
  speed : optnum;
}.
End LocationData.

(** A row of [public.live_locations].  [match_id] is the one nullable key
    column; [accuracy], [heading] and [speed] are nullable measurements.  The
    rounding of the DECIMAL columns is not modelled. *)
Module Row.
Record t : Type := mk {
  id : string;
  user_id : string;
  match_id : option string;
  latitude : number;
  longitude : number;
  accuracy : option number;
  heading : option number;
  speed : option number;
  updated_at : string;
  created_at : string;
}.
End Row.

(** [interface TrackedUser]: the columns of a fetched row the hook's type
    names.  [select("*")] joins nothing, so [profile] is never there. *)
Module TrackedUser.
Record t : Type := mk {
  user_id : string;
  latitude : number;
  longitude : number;
  accuracy : option number;
  heading : option number;
  speed : option number;
  updated_at : string;
  profile : option string;
}.

(** [data as TrackedUser[]] *)
Definition of_row (r : Row.t) : t :=
  {| user_id := Row.user_id r;
     latitude := Row.latitude r;
     longitude := Row.longitude r;
     accuracy := Row.accuracy r;
     heading := Row.heading r;
     speed := Row.speed r;
     updated_at := Row.updated_at r;
     profile := None |}.
End TrackedUser.

(** What the outside answers during one callback. *)
Record ambient : Type := {
  auth_user : option string;     (* supabase.auth.getUser(): the user's id, or null *)
  now : string;                  (* new Date().toISOString() *)
  request_error : option string; (* the error the Store request ends with, if any *)
  new_uuid : string;             (* gen_random_uuid() for an inserted row *)
  server_now : string;           (* now() for an inserted row *)
}.

(** ** The Store: table [live_locations]

    The table is the one the migration creates; it is a list of rows here.
    Its UNIQUE(user_id, match_id) constraint is not built into the type: it
    is the invariant [unique_keys], shown to be kept by the requests the
    hook sends.  The hosted database that carries the requests out is not
    part of the repository: what a request does to the table follows the
    spec's section 6. *)
Module Store.

Abbreviation table := (list Row.t).

(** The object handed to [.upsert(...)]. *)
Record payload : Type := {
  p_user_id : string;
  p_match_id : string;
  p_latitude : number;
  p_longitude : number;
  p_accuracy : optnum;
  p_heading : optnum;
  p_speed : optnum;
  p_updated_at : string;
}.

Definition key_is (u m : string) (r : Row.t) : Prop :=
  Row.user_id r = u ∧ Row.match_id r = Some m.

#[global] Instance key_is_dec u m r : Decision (key_is u m r).
Proof. unfold key_is. apply _. Defined.

Definition in_match (m : string) (r : Row.t) : Prop := Row.match_id r = Some m.

#[global] Instance in_match_dec m r : Decision (in_match m r).
Proof. unfold in_match. apply _. Defined.

(** The rows of one (participant, session) pair. *)
Definition samples (u m : string) (tbl : table) : list Row.t :=
  filter (key_is u m) tbl.

Definition unique_keys (tbl : table) : Prop :=
  ∀ u m, (length (samples u m tbl) ≤ 1)%nat.

(** A nullable column takes a number, and NULL for a property that is
    [null] or missing. *)
Definition column (v : optnum) : option number :=
  match v with
  | Undefined | Null => None
  | Num x => Some x
  end.

(** The row a payload makes: [uuid] and [created] are the defaults of the
    columns [id] and [created_at]. *)
Definition inserted (uuid created : string) (p : payload) : Row.t :=
  {| Row.id := uuid;
     Row.user_id := p_user_id p;
     Row.match_id := Some (p_match_id p);
     Row.latitude := p_latitude p;
     Row.longitude := p_longitude p;
     Row.accuracy := column (p_accuracy p);
     Row.heading := column (p_heading p);
     Row.speed := column (p_speed p);
     Row.updated_at := p_updated_at p;
     Row.created_at := created |}.

(** The row [r] after the conflicting payload [p] replaced its contents. *)
Definition updated (p : payload) (r : Row.t) : Row.t :=
  {| Row.id := Row.id r;
     Row.user_id := Row.user_id r;
     Row.match_id := Row.match_id r;
     Row.latitude := p_latitude p;
     Row.longitude := p_longitude p;
     Row.accuracy := column (p_accuracy p);
     Row.heading := column (p_heading p);
     Row.speed := column (p_speed p);
     Row.updated_at := p_updated_at p;
     Row.created_at := Row.created_at r |}.

(** Modelled from the spec: the Store's upsert, which the hosted database
    carries out for [.upsert(p, { onConflict: "user_id,match_id" })].
    "Store upsert: conflict key = (participant identifier, session
    identifier); write replaces any existing row with that key."  Without
    such a row one is added. *)
Definition upsert (uuid created : string) (p : payload) (tbl : table) : table :=
  if decide (Exists (key_is (p_user_id p) (p_match_id p)) tbl)
  then (λ r, if decide (key_is (p_user_id p) (p_match_id p) r)
             then updated p r else r) <$> tbl
  else tbl ++ [inserted uuid created p].

(** Modelled from the spec: the Store's delete, carried out for
    [.delete().eq("user_id", u).eq("match_id", m)].  "Store delete: removes
    the row matching (participant identifier, session identifier); no-op
    (not an error) if absent." *)
Definition delete (u m : string) (tbl : table) : table :=
  filter (λ r, ¬ key_is u m r) tbl.

(** Modelled from the spec: the Store's read, carried out for
    [.select("*").eq("match_id", m)].  "Store read (by session): returns all
    Position Samples for a session identifier; no pagination."  The reader
    is taken to be a participant of the session: the access policies are
    the Store's own. *)
Definition select (m : string) (tbl : table) : list Row.t :=
  filter (in_match m) tbl.

(** [{ data, error }] of a read. *)
Record response : Type := {
  data : option (list Row.t);
  error : option string;
}.

(** A read either ends in an error and carries no data, or carries the
    rows. *)
Definition read (amb : ambient) (m : string) (tbl : table) : response :=
  match request_error amb with
  | Some e => {| data := None; error := Some e |}
  | None => {| data := Some (select m tbl); error := None |}
  end.

End Store.

(** ** The hook's world *)

Inductive variant : Type := Default | Destructive.

Record Toast : Type := {
  title : string;
  description : string;
  toast_variant : variant;
}.

(** The four [useState] cells. *)
Record hook_state : Type := {
  isTracking : bool;
  currentLocation : option LocationData.t;
  trackedUsers : list TrackedUser.t;
  watchId : option Z;
}.

(** A watch registered with [navigator.geolocation.watchPosition].  Its
    success callback closes over [updateLocation], hence over the [matchId]
    of the render that started it. *)
Record PositionOptions : Type := {
  enableHighAccuracy : bool;
  timeout : Z;
  maximumAge : Z;
}.

Record Watch : Type := {
  watch_id : Z;
  watch_matchId : option string;
  watch_options : PositionOptions;
}.

Record Geolocation : Type := {
  available : bool;        (* navigator.geolocation is defined *)
  watches : list Watch;    (* the watches not yet cleared *)
  next_watch : Z;          (* the identifier the next watchPosition returns *)
}.

Record world : Type := {
  rendered : hook_state;       (* the state the current callbacks and cleanups closed over *)
  state : hook_state;          (* the state after the setters called since *)
  geolocation : Geolocation;
  live_locations : Store.table;
  channel : option string;     (* the session of the open realtime channel *)
  select_requests : nat;       (* reads sent to the Store so far *)
  toasts : list Toast;
  console : list string;
}.

Definition initial_state : hook_state :=
  {| isTracking := false; currentLocation := None; trackedUsers := []; watchId := None |}.

Definition initial_world (capable : bool) (tbl : Store.table) : world :=
  {| rendered := initial_state;
     state := initial_state;
     geolocation := {| available := capable; watches := []; next_watch := 1 |};
     live_locations := tbl;
     channel := None;
     select_requests := 0;
     toasts := [];
     console := [] |}.

(** *** Field updates *)

Definition set_state (f : hook_state → hook_state) (w : world) : world :=
  {| rendered := rendered w; state := f (state w); geolocation := geolocation w;
     live_locations := live_locations w; channel := channel w;
     select_requests := select_requests w; toasts := toasts w; console := console w |}.

Definition set_geolocation (f : Geolocation → Geolocation) (w : world) : world :=
  {| rendered := rendered w; state := state w; geolocation := f (geolocation w);
     live_locations := live_locations w; channel := channel w;
     select_requests := select_requests w; toasts := toasts w; console := console w |}.

Definition set_table (f : Store.table → Store.table) (w : world) : world :=
  {| rendered := rendered w; state := state w; geolocation := geolocation w;
     live_locations := f (live_locations w); channel := channel w;
     select_requests := select_requests w; toasts := toasts w; console := console w |}.

Definition set_channel (c : option string) (w : world) : world :=
  {| rendered := rendered w; state := state w; geolocation := geolocation w;
     live_locations := live_locations w; channel := c;
     select_requests := select_requests w; toasts := toasts w; console := console w |}.

Definition count_select (w : world) : world :=
  {| rendered := rendered w; state := state w; geolocation := geolocation w;
     live_locations := live_locations w; channel := channel w;
     select_requests := S (select_requests w); toasts := toasts w; console := console w |}.

Definition toast (t : Toast) (w : world) : world :=
  {| rendered := rendered w; state := state w; geolocation := geolocation w;
     live_locations := live_locations w; channel := channel w;
     select_requests := select_requests w; toasts := toasts w ++ [t]; console := console w |}.

Definition console_error (msg : string) (w : world) : world :=
  {| rendered := rendered w; state := state w; geolocation := geolocation w;
     live_locations := live_locations w; channel := channel w;
     select_requests := select_requests w; toasts := toasts w; console := console w ++ [msg] |}.

Definition commit (w : world) : world :=
  {| rendered := state w; state := state w; geolocation := geolocation w;
     live_locations := live_locations w; channel := channel w;
     select_requests := select_requests w; toasts := toasts w; console := console w |}.

Definition setIsTracking (b : bool) (s : hook_state) : hook_state :=
  {| isTracking := b; currentLocation := currentLocation s;
     trackedUsers := trackedUsers s; watchId := watchId s |}.

Definition setCurrentLocation (l : option LocationData.t) (s : hook_state) : hook_state :=
  {| isTracking := isTracking s; currentLocation := l;
     trackedUsers := trackedUsers s; watchId := watchId s |}.

Definition setTrackedUsers (us : list TrackedUser.t) (s : hook_state) : hook_state :=
  {| isTracking := isTracking s; currentLocation := currentLocation s;
     trackedUsers := us; watchId := watchId s |}.

Definition setWatchId (i : option Z) (s : hook_state) : hook_state :=
  {| isTracking := isTracking s; currentLocation := currentLocation s;
     trackedUsers := trackedUsers s; watchId := i |}.

(** *** navigator.geolocation *)

(** The options [startTracking] passes. *)
Definition tracking_options : PositionOptions :=
  {| enableHighAccuracy := true; timeout := 10000; maximumAge := 5000 |}.

(** [watchPosition] registers the callbacks under an identifier not handed
    out before, and returns it. *)
Definition watchPosition (m : option string) (g : Geolocation) : Geolocation :=
  {| available := available g;
     watches := watches g ++ [{| watch_id := next_watch g; watch_matchId := m;
                                 watch_options := tracking_options |}];
     next_watch := next_watch g + 1 |}.

Definition clearWatch (i : Z) (g : Geolocation) : Geolocation :=
  {| available := available g;
     watches := filter (λ k, watch_id k ≠ i) (watches g);
     next_watch := next_watch g |}.

Definition active (i : Z) (w : world) : Prop :=
  i ∈ watch_id <$> watches (geolocation w).

#[global] Instance active_dec i w : Decision (active i w).
Proof. unfold active. apply _. Defined.

(** ** useLocationTracking *)

Definition toast_unsupported : Toast :=
  {| title := "Error";
     description := "Geolocation is not supported by your browser";
     toast_variant := Destructive |}.

Definition toast_started : Toast :=
  {| title := "Location Sharing Started";
     description := "Your location is now being shared with match participants";
     toast_variant := Default |}.

Definition toast_stopped : Toast :=
  {| title := "Location Sharing Stopped";
     description := "Your location is no longer being shared";
     toast_variant := Default |}.

Definition toast_location_error (message : string) : Toast :=
  {| title := "Location Error"; description := message; toast_variant := Destructive |}.

(** The object [updateLocation] upserts. *)
Definition upsert_payload (uid m : string) (location : LocationData.t) (at_ : string)
  : Store.payload :=
  {| Store.p_user_id := uid;
     Store.p_match_id := m;
     Store.p_latitude := LocationData.latitude location;
     Store.p_longitude := LocationData.longitude location;
     Store.p_accuracy := LocationData.accuracy location;
     Store.p_heading := LocationData.heading location;
     Store.p_speed := LocationData.speed location;
     Store.p_updated_at := at_ |}.

Definition updateLocation (matchId : option string) (location : LocationData.t)
    (amb : ambient) (w : world) : world :=
  match truthy matchId with
  | None => w
  | Some m =>
    match auth_user amb with
    | None => w
    | Some uid =>
      match request_error amb with
      | Some e => console_error "Error updating location:" w
      | None =>
        set_table (Store.upsert (new_uuid amb) (server_now amb)
                     (upsert_payload uid m location (now amb))) w
      end
    end
  end.

(** The [LocationData] the success callback builds from a position. *)
Definition to_location (c : Coords.t) : LocationData.t :=
  {| LocationData.latitude := Coords.latitude c;
     LocationData.longitude := Coords.longitude c;
     LocationData.accuracy := Coords.accuracy c;
     LocationData.heading := nullish_undefined (Coords.heading c);
     LocationData.speed := nullish_undefined (Coords.speed c) |}.

(** The success callback of the watch [k]. *)
Definition on_position (k : Watch) (c : Coords.t) (amb : ambient) (w : world) : world :=
  let location := to_location c in
  updateLocation (watch_matchId k) location amb
    (set_state (setCurrentLocation (Some location)) w).

(** The error callback of a watch. *)
Definition on_position_error (message : string) (w : world) : world :=
  toast (toast_location_error message) (console_error "Geolocation error:" w).

Definition startTracking (matchId : option string) (w : world) : world :=
  if available (geolocation w) then
    let i := next_watch (geolocation w) in
    let w1 := set_geolocation (watchPosition matchId) w in
    let w2 := set_state (setWatchId (Some i)) w1 in
    let w3 := set_state (setIsTracking true) w2 in
    toast toast_started w3
  else toast toast_unsupported w.

Definition stopTracking (matchId : option string) (amb : ambient) (w : world) : world :=
  let w1 :=
    match watchId (rendered w) with
    | Some i => set_state (setWatchId None) (set_geolocation (clearWatch i) w)
    | None => w
    end in
  let w2 := set_state (setIsTracking false) w1 in
  let w3 := set_state (setCurrentLocation None) w2 in
  let w4 :=
    match truthy matchId with
    | Some m =>
      match auth_user amb with
      | Some uid =>
        match request_error amb with
        | None => set_table (Store.delete uid m) w3
        | Some _ => w3
        end
      | None => w3
      end
    | None => w3
    end in
  toast toast_stopped w4.

(** [fetchLocations] of the session effect, with the Store's answer. *)
Definition fetchLocations (m : string) (amb : ambient) (w : world) : world :=
  let w1 := count_select w in
  let r := Store.read amb m (live_locations w) in
  match Store.error r, Store.data r with
  | None, Some rows => set_state (setTrackedUsers (TrackedUser.of_row <$> rows)) w1
  | _, _ => w1
  end.

(** The session effect (dependencies [[matchId]]): the first fetch, then the
    subscription to [locations-${matchId}]. *)
Definition session_effect (matchId : option string) (amb : ambient) (w : world) : world :=
  match truthy matchId with
  | None => w
  | Some m => set_channel (Some m) (fetchLocations m amb w)
  end.

(** Its cleanup: [supabase.removeChannel(channel)]. *)
Definition session_cleanup (w : world) : world := set_channel None w.

(** The callback of the channel: any change of the session's rows. *)
Definition on_notification (amb : ambient) (w : world) : world :=
  match channel w with
  | Some m => fetchLocations m amb w
  | None => w
  end.

(** The cleanup the watch effect (dependencies [[watchId]]) returns; it
    closes over the [watchId] of the render that ran the effect. *)
Definition watch_cleanup (captured : option Z) (g : Geolocation) : Geolocation :=
  match captured with
  | Some i => clearWatch i g
  | None => g
  end.

(** A re-render after state changes.  React runs an effect's cleanup before
    it runs the effect again because a dependency changed: when [watchId]
    differs from the rendered one, the cleanup of the previous render runs,
    with the [watchId] it closed over.  The callbacks then see the new state. *)
Definition render (w : world) : world :=
  let w1 :=
    if decide (watchId (state w) = watchId (rendered w)) then w
    else set_geolocation (watch_cleanup (watchId (rendered w))) w in
  commit w1.

(** Unmounting runs the cleanups of both effects. *)
Definition unmount (w : world) : world :=
  session_cleanup (set_geolocation (watch_cleanup (watchId (rendered w))) w).

(** *** Histories of the hook *)

Inductive event : Type :=
  | Mount (matchId : option string) (amb : ambient)
  | StartTracking (matchId : option string)
  | StopTracking (matchId : option string) (amb : ambient)
  | Position (i : Z) (c : Coords.t) (amb : ambient)
  | PositionError (i : Z) (message : string)
  | Notification (amb : ambient)
  | Render.

Definition find_watch (i : Z) (g : Geolocation) : option Watch :=
  List.find (λ k, bool_decide (watch_id k = i)) (watches g).

Definition step (w : world) (e : event) : world :=
  match e with
  | Mount matchId amb => session_effect matchId amb w
  | StartTracking matchId => startTracking matchId w
  | StopTracking matchId amb => stopTracking matchId amb w
  | Position i c amb =>
    match find_watch i (geolocation w) with
    | Some k => on_position k c amb w
    | None => w
    end
  | PositionError i message =>
    match find_watch i (geolocation w) with
    | Some _ => on_position_error message w
    | None => w
    end
  | Notification amb => on_notification amb w
  | Render => render w
  end.

Definition run (es : list event) (w : world) : world := foldl step w es.

(** Every watch still registered, and every identifier the hook holds, was
    handed out by [watchPosition]. *)
Definition ids_issued (w : world) : Prop :=
  (∀ i, active i w → i < next_watch (geolocation w)) ∧
  (∀ i, watchId (rendered w) = Some i → i < next_watch (geolocation w)) ∧
  (∀ i, watchId (state w) = Some i → i < next_watch (geolocation w)).

(** ** LiveTrackingMap: the marker effect *)

Definition LngLat : Type := number * number.

(** A [mapboxgl.Marker]: [marker_id] stands for the identity of the object. *)
Record Marker : Type := {
  marker_id : nat;
  lngLat : LngLat;
  popup_updated_at : string;
}.

Definition setLngLat (p : LngLat) (mk : Marker) : Marker :=
  {| marker_id := marker_id mk; lngLat := p; popup_updated_at := popup_updated_at mk |}.

(** What the map shows: the initial view, the view after [flyTo], or the
    view fitted to a [LngLatBounds], given by the points it was extended
    with. *)
Inductive Camera : Type :=
  | Centered (center : LngLat) (zoom : Z)
  | FlyTo (center : LngLat) (zoom : Z)
  | FitBounds (bounds : list LngLat) (padding maxZoom : Z).

(** The refs and state of the component the marker effect touches.
    [markersRef.current] is a plain object keyed by user identifiers, the
    UUIDs of column [user_id], none of which names a member of
    [Object.prototype]: a finite map.  The markers on the map are those
    constructed ([addTo] follows every construction) less those removed. *)
Record view : Type := {
  mapLoaded : bool;
  map_current : option Camera;            (* map.current, by what it shows *)
  markersRef : gmap string Marker;        (* markersRef.current *)
  created : nat;                          (* markers constructed so far *)
  removed : list nat;                     (* markers on which remove() was called *)
}.

Definition initial_view : view :=
  {| mapLoaded := false; map_current := None; markersRef := ∅;
     created := 0; removed := [] |}.

(** The effect "Initialize map": [new mapboxgl.Map({ center: [0, 0], zoom: 2 })]
    unless there is a map already. *)
Definition init_map (v : view) : view :=
  match map_current v with
  | Some _ => v
  | None =>
    {| mapLoaded := mapLoaded v; map_current := Some (Centered (0%float, 0%float) 2);
       markersRef := markersRef v; created := created v; removed := removed v |}
  end.

(** The map's "load" event: [setMapLoaded(true)]. *)
Definition on_load (v : view) : view :=
  {| mapLoaded := true; map_current := map_current v;
     markersRef := markersRef v; created := created v; removed := removed v |}.

Definition with_map (f : Camera → Camera) (v : view) : view :=
  {| mapLoaded := mapLoaded v; map_current := f <$> map_current v;
     markersRef := markersRef v; created := created v; removed := removed v |}.

Definition with_markers (f : gmap string Marker → gmap string Marker) (v : view) : view :=
  {| mapLoaded := mapLoaded v; map_current := map_current v;
     markersRef := f (markersRef v); created := created v; removed := removed v |}.

(** The effect "Geocode pickup location and add marker" (dependencies
    [[mapLoaded, pickupLocation]]): [found] is the centre of the first
    feature the geocoder answers with, if it answers with any.  The pickup
    marker is constructed and added to the map, it is not registered in
    [markersRef.current]. *)
Definition pickup_effect (pickupLocation : string) (found : option LngLat) (v : view) : view :=
  if mapLoaded v then
    match map_current v, truthy (Some pickupLocation), found with
    | Some _, Some _, Some centre =>
      {| mapLoaded := mapLoaded v;
         map_current := Some (FlyTo centre 14);
         markersRef := markersRef v;
         created := S (created v);
         removed := removed v |}
    | _, _, _ => v
    end
  else v.

(** [map.fitBounds(bounds, { padding: 50, maxZoom: 15 })] *)
Definition fitBounds (b : list LngLat) (c : Camera) : Camera := FitBounds b 50 15.

Definition position_of (u : TrackedUser.t) : LngLat :=
  (TrackedUser.longitude u, TrackedUser.latitude u).

(** [new mapboxgl.Marker(el).setLngLat(..).setPopup(..).addTo(map.current!)]
    and its registration under the user's identifier. *)
Definition create_marker (u : TrackedUser.t) (v : view) : view :=
  let mk := {| marker_id := created v; lngLat := position_of u;
               popup_updated_at := TrackedUser.updated_at u |} in
  {| mapLoaded := mapLoaded v;
     map_current := map_current v;
     markersRef := <[TrackedUser.user_id u := mk]> (markersRef v);
     created := S (created v);
     removed := removed v |}.

(** The body of [trackedUsers.forEach((user) => ...)]. *)
Definition place (v : view) (u : TrackedUser.t) : view :=
  match markersRef v !! TrackedUser.user_id u with
  | Some mk =>
    with_markers (insert (TrackedUser.user_id u) (setLngLat (position_of u) mk)) v
  | None => create_marker u v
  end.

(** [trackedUsers.find((u) => u.user_id === markerId)] *)
Definition find_user (markerId : string) (users : list TrackedUser.t) : option TrackedUser.t :=
  List.find (λ u, bool_decide (TrackedUser.user_id u = markerId)) users.

(** The body of [Object.keys(markersRef.current).forEach((markerId) => ...)].
    The keys are those the object had when the loop started, each is visited
    once and only its own visit deletes it, so its marker is there. *)
Definition prune (users : list TrackedUser.t) (v : view) (markerId : string) : view :=
  match find_user markerId users with
  | Some _ => v
  | None =>
    match markersRef v !! markerId with
    | Some mk =>
      {| mapLoaded := mapLoaded v;
         map_current := map_current v;
         markersRef := delete markerId (markersRef v);
         created := created v;
         removed := removed v ++ [marker_id mk] |}
    | None => v
    end
  end.

(** [Object.keys(markersRef.current)] *)
Definition marker_keys (v : view) : list string := (map_to_list (markersRef v)).*1.

(** One reconciliation: the effect "Update markers for tracked users" past
    its guard. *)
Definition reconcile (users : list TrackedUser.t) (v : view) : view :=
  let v1 := foldl place v users in
  let v2 := foldl (prune users) v1 (marker_keys v1) in
  match users with
  | [] => v2
  | _ :: _ => with_map (fitBounds (position_of <$> users)) v2
  end.

(** The effect (dependencies [[trackedUsers, mapLoaded]]):
    [if (!mapLoaded || !map.current) return;] and then the reconciliation. *)
Definition markers_effect (users : list TrackedUser.t) (v : view) : view :=
  if mapLoaded v then
    match map_current v with
    | None => v
    | Some _ => reconcile users v
    end
  else v.

Definition user_ids (users : list TrackedUser.t) : list string :=
  TrackedUser.user_id <$> users.

(** Where the marker of [k] ends up after the users were visited in order,
    starting from [p]. *)
Definition final_position (k : string) (users : list TrackedUser.t) (p : LngLat) : LngLat :=
  foldl (λ q u, if decide (TrackedUser.user_id u = k) then position_of u else q) p users.

(** The marker the pruning loop removes at key [k], if any: [markers] is
    what [markersRef.current] holds when the loop starts. *)
Definition dropped (users : list TrackedUser.t) (markers : gmap string Marker)
    (k : string) : option nat :=
  if decide (k ∈ user_ids users) then None else marker_id <$> markers !! k.

(** The markers registered are distinct objects, all constructed already. *)
Definition markers_ok (v : view) : Prop :=
  (∀ k mk, markersRef v !! k = Some mk → (marker_id mk < created v)%nat) ∧
  (∀ k1 k2 mk1 mk2, markersRef v !! k1 = Some mk1 → markersRef v !! k2 = Some mk2 →
     marker_id mk1 = marker_id mk2 → k1 = k2).

(** On a device without the capability nothing was ever started. *)
Definition never_started (w : world) : Prop :=
  available (geolocation w) = false ∧ isTracking (state w) = false ∧
  isTracking (rendered w) = false ∧ watches (geolocation w) = [].

(** A run of location events through [updateLocation]. *)
Definition publish (matchId : option string) (w : world)
    (e : LocationData.t * ambient) : world :=
  updateLocation matchId e.1 e.2 w.

(** ** A session to try things on: "M1", with participants "U1" and "U2" *)

Definition as_U1 : ambient :=
  {| auth_user := Some "U1"; now := "2026-01-30T15:45:44.000Z"; request_error := None;
     new_uuid := "7d0c"; server_now := "2026-01-30T15:45:44.120Z" |}.

Definition as_U1_later : ambient :=
  {| auth_user := Some "U1"; now := "2026-01-30T15:45:49.000Z"; request_error := None;
     new_uuid := "9e1f"; server_now := "2026-01-30T15:45:49.120Z" |}.

Definition as_U1_offline : ambient :=
  {| auth_user := Some "U1"; now := "2026-01-30T15:46:10.000Z";
     request_error := Some "TypeError: Failed to fetch";
     new_uuid := "a3b7"; server_now := "2026-01-30T15:46:10.120Z" |}.

Definition sample_U1 : Row.t :=
  {| Row.id := "7d0c"; Row.user_id := "U1"; Row.match_id := Some "M1";
     Row.latitude := 10%float; Row.longitude := 20%float;
     Row.accuracy := Some 5%float; Row.heading := None; Row.speed := None;
     Row.updated_at := "2026-01-30T15:45:44.000Z";
     Row.created_at := "2026-01-30T15:45:44.120Z" |}.

Definition sample_U2 : Row.t :=
  {| Row.id := "51aa"; Row.user_id := "U2"; Row.match_id := Some "M1";
     Row.latitude := 10.5%float; Row.longitude := 20.5%float;
     Row.accuracy := None; Row.heading := Some 90%float; Row.speed := Some 1.5%float;
     Row.updated_at := "2026-01-30T15:45:40.000Z";
     Row.created_at := "2026-01-30T15:40:02.500Z" |}.

Definition fix_1 : Coords.t :=
  {| Coords.latitude := 10%float; Coords.longitude := 20%float;
     Coords.accuracy := Num 5%float; Coords.heading := Null; Coords.speed := Null |}.

Definition fix_2 : Coords.t :=
  {| Coords.latitude := 10.25%float; Coords.longitude := 20.125%float;
     Coords.accuracy := Num 8%float; Coords.heading := Num 45%float;
     Coords.speed := Undefined |}.

(** U1 and U2 are sharing, this device has not started yet. *)
Definition shared_session : world := initial_world true [sample_U1; sample_U2].

(** This device shares, and React has rendered since. *)
Definition sharing : world := render (startTracking (Some "M1") (initial_world true [])).

(** [startTracking] once more while sharing, and the render that follows. *)
Definition sharing_again : world := render (startTracking (Some "M1") sharing).

(** Tracked users "A", "B" and "C", and "A" after a move. *)
Definition tracked_A : TrackedUser.t :=
  {| TrackedUser.user_id := "A"; TrackedUser.latitude := 10%float;
     TrackedUser.longitude := 20%float; TrackedUser.accuracy := Some 5%float;
     TrackedUser.heading := None; TrackedUser.speed := None;
     TrackedUser.updated_at := "2026-01-30T15:45:44.000Z"; TrackedUser.profile := None |}.

Definition tracked_A_moved : TrackedUser.t :=
  {| TrackedUser.user_id := "A"; TrackedUser.latitude := 10.25%float;
     TrackedUser.longitude := 20.125%float; TrackedUser.accuracy := Some 8%float;
     TrackedUser.heading := Some 45%float; TrackedUser.speed := None;
     TrackedUser.updated_at := "2026-01-30T15:45:49.000Z"; TrackedUser.profile := None |}.

Definition tracked_B : TrackedUser.t :=
  {| TrackedUser.user_id := "B"; TrackedUser.latitude := 10.5%float;
     TrackedUser.longitude := 20.5%float; TrackedUser.accuracy := None;
     TrackedUser.heading := Some 90%float; TrackedUser.speed := Some 1.5%float;
     TrackedUser.updated_at := "2026-01-30T15:45:40.000Z"; TrackedUser.profile := None |}.

Definition tracked_C : TrackedUser.t :=
  {| TrackedUser.user_id := "C"; TrackedUser.latitude := 11%float;
     TrackedUser.longitude := 21%float; TrackedUser.accuracy := None;
     TrackedUser.heading := None; TrackedUser.speed := None;
     TrackedUser.updated_at := "2026-01-30T15:45:47.000Z"; TrackedUser.profile := None |}.

(** The map has loaded and shows nobody yet. *)
Definition loaded_view : view := on_load (init_map initial_view).

(** "A" and "B" are on the map. *)
Definition view_A_B : view := markers_effect [tracked_A; tracked_B] loaded_view.

Definition marker_A : Marker :=
  {| marker_id := 0; lngLat := (20%float, 10%float);
     popup_updated_at := "2026-01-30T15:45:44.000Z" |}.

Definition marker_B : Marker :=
  {| marker_id := 1; lngLat := (20.5%float, 10.5%float);
     popup_updated_at := "2026-01-30T15:45:40.000Z" |}.

(** The hook has fetched session "M1" and listens to its channel. *)
Definition watching_M1 : world := render (session_effect (Some "M1") as_U1 shared_session).

(** ** The component around the hook *)

(** The button of [LiveTrackingMap]: "Share My Location" runs
    [startTracking] while [isTracking] is false, "Stop Sharing" runs
    [stopTracking] while it is true. *)
Definition click (matchId : option string) (amb : ambient) (w : world) : world :=
  if isTracking (rendered w) then stopTracking matchId amb w
  else startTracking matchId w.

(** The badge "[trackedUsers.length] online". *)
Definition online (w : world) : nat := length (trackedUsers (rendered w)).

(** What happens to a mounted [LiveTrackingMap]: the user clicks the button,
    the device delivers a position or an error to a watch, the channel
    reports a change.  React renders after each. *)
Inductive ui_event : Type :=
  | Click (amb : ambient)
  | Fix (i : Z) (c : Coords.t) (amb : ambient)
  | FixError (i : Z) (message : string)
  | Changed (amb : ambient).

Definition ui_step (matchId : string) (w : world) (e : ui_event) : world :=
  render
    match e with
    | Click amb => click (Some matchId) amb w
    | Fix i c amb => step w (Position i c amb)
    | FixError i message => step w (PositionError i message)
    | Changed amb => step w (Notification amb)
    end.

Definition ui_run (matchId : string) (es : list ui_event) (w : world) : world :=
  foldl (ui_step matchId) w es.

(** The component after its first render and effects. *)
Definition mounted (matchId : string) (amb : ambient) (capable : bool)
    (tbl : Store.table) : world :=
  render (session_effect (Some matchId) amb (initial_world capable tbl)).

(** At most one watch is registered, the hook holds its identifier, and
    [isTracking] and the location shown tell whether there is one. *)
Definition one_watch (w : world) : Prop :=
  rendered w = state w ∧
  match watchId (rendered w) with
  | Some i => isTracking (rendered w) = true ∧
              watch_id <$> watches (geolocation w) = [i]
  | None => isTracking (rendered w) = false ∧ currentLocation (rendered w) = None ∧
            watches (geolocation w) = []
  end.

(** The change notifications among the events. *)
Definition is_change (e : ui_event) : bool :=
  match e with
  | Changed _ => true
  | _ => false
  end.

Definition changes (es : list ui_event) : nat := length (filter (λ e, is_change e) es).

(** The policies of the migration on writes, for the signed-in user [uid]:
    [WITH CHECK (auth.uid() = user_id)] on INSERT, [USING (auth.uid() =
    user_id)] on UPDATE and on DELETE. *)
Definition own_row (uid : string) (r : Row.t) : Prop := Row.user_id r = uid.

(** ** Histories of the view *)

Inductive view_event : Type :=
  | MapInit
  | MapLoad
  | Tracked (users : list TrackedUser.t)
  | Pickup (pickupLocation : string) (found : option LngLat).

Definition view_step (v : view) (e : view_event) : view :=
  match e with
  | MapInit => init_map v
  | MapLoad => on_load v
  | Tracked users => markers_effect users v
  | Pickup pickupLocation found => pickup_effect pickupLocation found v
  end.

Definition view_run (es : list view_event) (v : view) : view := foldl view_step v es.

(** No marker is in use after its removal: the removed ones were all
    constructed, each was removed once, and none is registered. *)
Definition removed_ok (v : view) : Prop :=
  (∀ i, i ∈ removed v → (i < created v)%nat) ∧
  (∀ k mk, markersRef v !! k = Some mk → marker_id mk ∉ removed v) ∧
  NoDup (removed v).

(** The marker [i] was constructed, is still on the map, and is outside the
    marker effect's reach: it is not registered. *)
Definition out_of_reach (i : nat) (v : view) : Prop :=
  (i < created v)%nat ∧ (i ∉ removed v) ∧
  ∀ k mk, markersRef v !! k = Some mk → marker_id mk ≠ i.

(** * Properties *)

(** ** The Store *)

Section store_facts.
Import Store.
Implicit Types (tbl : table) (p : payload) (r : Row.t) (u m : string).

Lemma updated_key p r u m : key_is u m (updated p r) ↔ key_is u m r.
Proof. reflexivity. Qed.

Lemma inserted_key uuid c p u m :
  key_is u m (inserted uuid c p) ↔ u = p_user_id p ∧ m = p_match_id p.
Proof. unfold key_is; simpl. split; intros [? ?]; split; congruence. Qed.

Lemma samples_nil u m tbl : ¬ Exists (key_is u m) tbl → samples u m tbl = [].
Proof.
  intros Hno. unfold samples. induction tbl as [|r tbl IH]; [done|].
  rewrite filter_cons. destruct (decide (key_is u m r)) as [Hk|Hk].
  - exfalso. apply Hno. by left.
  - apply IH. intros Hex. apply Hno. by right.
Qed.

Lemma samples_cons_length u m tbl :
  Exists (key_is u m) tbl → (1 ≤ length (samples u m tbl))%nat.
Proof.
  unfold samples. induction 1 as [r tbl Hk|r tbl _ IH]; rewrite filter_cons.
  - rewrite decide_True by done. simpl. lia.
  - destruct (decide (key_is u m r)); simpl; lia.
Qed.

(** Updating rows where they stand moves no row from one key to another. *)
Lemma samples_update_in_place p (hit : Row.t → Prop) `{!∀ r, Decision (hit r)} u m tbl :
  length (samples u m ((λ r, if decide (hit r) then updated p r else r) <$> tbl))
  = length (samples u m tbl).
Proof.
  unfold samples. induction tbl as [|r tbl IH]; [done|].
  rewrite fmap_cons, !filter_cons.
  destruct (decide (hit r)).
  - destruct (decide (key_is u m r)) as [Hk|Hk].
    + rewrite decide_True by (by apply updated_key). simpl. by rewrite IH.
    + rewrite decide_False by (by rewrite updated_key). done.
  - destruct (decide (key_is u m r)); simpl; by rewrite IH.
Qed.

Lemma upsert_samples_same uuid c p tbl :
  length (samples (p_user_id p) (p_match_id p) (upsert uuid c p tbl))
  = Nat.max 1 (length (samples (p_user_id p) (p_match_id p) tbl)).
Proof.
  unfold upsert. destruct (decide (Exists _ tbl)) as [Hex|Hno].
  - rewrite samples_update_in_place. apply samples_cons_length in Hex. lia.
  - unfold samples at 1. rewrite filter_app. fold (samples (p_user_id p) (p_match_id p) tbl).
    rewrite (samples_nil _ _ _ Hno), filter_cons, filter_nil.
    rewrite decide_True by (by apply inserted_key). done.
Qed.

Lemma upsert_samples_other uuid c p tbl u m :
  ¬ (u = p_user_id p ∧ m = p_match_id p) →
  samples u m (upsert uuid c p tbl) = samples u m tbl
  ∨ length (samples u m (upsert uuid c p tbl)) = length (samples u m tbl).
Proof.
  intros Hne. unfold upsert. destruct (decide (Exists _ tbl)) as [Hex|Hno].
  - right. apply samples_update_in_place.
  - left. unfold samples. rewrite filter_app, filter_cons, filter_nil.
    rewrite decide_False by (by rewrite inserted_key). by rewrite app_nil_r.
Qed.

Lemma upsert_unique uuid c p tbl : unique_keys tbl → unique_keys (upsert uuid c p tbl).
Proof.
  intros Huniq u m.
  destruct (decide (u = p_user_id p ∧ m = p_match_id p)) as [[-> ->]|Hne].
  - rewrite upsert_samples_same. specialize (Huniq (p_user_id p) (p_match_id p)). lia.
  - destruct (upsert_samples_other uuid c p tbl u m Hne) as [->| ->]; apply Huniq.
Qed.

Lemma upsert_replaces uuid c p tbl :
  samples (p_user_id p) (p_match_id p) tbl ≠ [] →
  length (upsert uuid c p tbl) = length tbl.
Proof.
  intros Hsome. unfold upsert. destruct (decide (Exists _ tbl)) as [Hex|Hno].
  - apply length_fmap.
  - by apply samples_nil in Hno.
Qed.

Lemma delete_samples_same u m tbl : samples u m (delete u m tbl) = [].
Proof.
  unfold samples, delete. induction tbl as [|r tbl IH]; [done|].
  rewrite (filter_cons (λ r, ¬ key_is u m r)).
  destruct (decide (¬ key_is u m r)) as [Hk|Hk]; [|done].
  by rewrite filter_cons_False.
Qed.

Lemma delete_others u m tbl :
  filter (λ r, ¬ key_is u m r) (delete u m tbl) = filter (λ r, ¬ key_is u m r) tbl.
Proof.
  unfold delete. induction tbl as [|r tbl IH]; [done|].
  rewrite (filter_cons (λ r, ¬ key_is u m r) r tbl).
  destruct (decide (¬ key_is u m r)) as [Hk|Hk]; [|done].
  rewrite filter_cons_True by done. by rewrite IH.
Qed.

Lemma delete_samples_other u m u' m' tbl :
  ¬ (u' = u ∧ m' = m) → samples u' m' (delete u m tbl) = samples u' m' tbl.
Proof.
  intros Hne. unfold samples, delete. induction tbl as [|r tbl IH]; [done|].
  rewrite (filter_cons (λ r, ¬ key_is u m r)), (filter_cons (key_is u' m') r tbl).
  destruct (decide (¬ key_is u m r)) as [Hk|Hk].
  - rewrite filter_cons. destruct (decide (key_is u' m' r)); by rewrite IH.
  - rewrite decide_False; [done|].
    intros [Hu Hm]. apply Hk. intros Hk'. apply Hne.
    destruct Hk' as [Hu' Hm']. split; congruence.
Qed.

Lemma delete_unique u m tbl : unique_keys tbl → unique_keys (delete u m tbl).
Proof.
  intros Huniq u' m'. destruct (decide (u' = u ∧ m' = m)) as [[-> ->]|Hne].
  - rewrite delete_samples_same. simpl. lia.
  - rewrite delete_samples_other by done. apply Huniq.
Qed.

End store_facts.

(** ** The publisher *)

Section publisher_facts.
Import Store.
Implicit Types (w : world) (amb : ambient) (matchId : option string).

Lemma fetchLocations_frame m amb w :
  geolocation (fetchLocations m amb w) = geolocation w ∧
  isTracking (state (fetchLocations m amb w)) = isTracking (state w) ∧
  watchId (state (fetchLocations m amb w)) = watchId (state w) ∧
  rendered (fetchLocations m amb w) = rendered w ∧
  live_locations (fetchLocations m amb w) = live_locations w ∧
  toasts (fetchLocations m amb w) = toasts w ∧
  console (fetchLocations m amb w) = console w ∧
  channel (fetchLocations m amb w) = channel w.
Proof.
  unfold fetchLocations, Store.read.
  destruct (request_error amb); simpl; repeat split; reflexivity.
Qed.

Lemma updateLocation_frame matchId location amb w :
  geolocation (updateLocation matchId location amb w) = geolocation w ∧
  state (updateLocation matchId location amb w) = state w ∧
  rendered (updateLocation matchId location amb w) = rendered w ∧
  toasts (updateLocation matchId location amb w) = toasts w.
Proof.
  unfold updateLocation.
  destruct (truthy matchId), (auth_user amb), (request_error amb);
    simpl; repeat split; reflexivity.
Qed.

Lemma updateLocation_table matchId location amb w :
  live_locations (updateLocation matchId location amb w) =
  match truthy matchId, auth_user amb, request_error amb with
  | Some m, Some uid, None =>
    upsert (new_uuid amb) (server_now amb)
      (upsert_payload uid m location (now amb)) (live_locations w)
  | _, _, _ => live_locations w
  end.
Proof.
  unfold updateLocation.
  destruct (truthy matchId), (auth_user amb), (request_error amb); reflexivity.
Qed.

Lemma updateLocation_unique matchId location amb w :
  unique_keys (live_locations w) →
  unique_keys (live_locations (updateLocation matchId location amb w)).
Proof.
  intros Huniq. rewrite updateLocation_table.
  destruct (truthy matchId), (auth_user amb), (request_error amb);
    auto using upsert_unique.
Qed.

Lemma publish_unique matchId evs w :
  unique_keys (live_locations w) →
  unique_keys (live_locations (foldl (publish matchId) w evs)).
Proof.
  revert w. induction evs as [|e evs IH]; intros w Huniq; [done|].
  simpl. apply IH. by apply updateLocation_unique.
Qed.

Lemma stopTracking_table matchId amb w :
  live_locations (stopTracking matchId amb w) =
  match truthy matchId, auth_user amb, request_error amb with
  | Some m, Some uid, None => delete uid m (live_locations w)
  | _, _, _ => live_locations w
  end.
Proof.
  unfold stopTracking.
  destruct (watchId (rendered w)), (truthy matchId), (auth_user amb), (request_error amb);
    reflexivity.
Qed.

Lemma unique_keys_step w e :
  unique_keys (live_locations w) → unique_keys (live_locations (step w e)).
Proof.
  intros Huniq.
  destruct e as [matchId amb|matchId|matchId amb|i c amb|i message|amb|]; cbn [step].
  - unfold session_effect. destruct (truthy matchId) as [m|]; [|done]. simpl.
    by destruct (fetchLocations_frame m amb w) as (_ & _ & _ & _ & -> & _).
  - unfold startTracking. by destruct (available (geolocation w)).
  - rewrite stopTracking_table.
    destruct (truthy matchId), (auth_user amb), (request_error amb);
      auto using delete_unique.
  - destruct (find_watch i (geolocation w)) as [k|]; [|done].
    unfold on_position. by apply updateLocation_unique.
  - by destruct (find_watch i (geolocation w)).
  - unfold on_notification. destruct (channel w) as [m|]; [|done].
    by destruct (fetchLocations_frame m amb w) as (_ & _ & _ & _ & -> & _).
  - unfold render. by destruct (decide _).
Qed.

Lemma unique_keys_run es w :
  unique_keys (live_locations w) → unique_keys (live_locations (run es w)).
Proof.
  revert w. induction es as [|e es IH]; intros w Huniq; [done|].
  apply IH. by apply unique_keys_step.
Qed.

(** C1: whatever location events a participant publishes for a session, the
    table holds at most one row per (user_id, match_id) after each of them,
    and so it does along every history of the hook, positions delivered to
    its watches included; a write that goes through leaves exactly one row
    under its key, and when the key was there already the table has as many
    rows as before: the row was replaced, none was added. *)
Theorem updateLocation_one_sample_per_pair matchId w
    (evs : list (LocationData.t * ambient)) :
  unique_keys (live_locations w) →
  (∀ n, unique_keys (live_locations (foldl (publish matchId) w (take n evs)))) ∧
  (∀ es, unique_keys (live_locations (run es w))) ∧
  (∀ location amb uid m,
     truthy matchId = Some m → auth_user amb = Some uid → request_error amb = None →
     let tbl' := live_locations (updateLocation matchId location amb w) in
     length (samples uid m tbl') = 1%nat ∧
     (samples uid m (live_locations w) ≠ [] → length tbl' = length (live_locations w))).
Proof.
  intros Huniq. split; [|split].
  - intros n. by apply publish_unique.
  - intros es. by apply unique_keys_run.
  - intros location amb uid m Hm Hu Hok tbl'. subst tbl'.
    rewrite updateLocation_table, Hm, Hu, Hok. split.
    + pose proof (upsert_samples_same (new_uuid amb) (server_now amb)
        (upsert_payload uid m location (now amb)) (live_locations w)) as Hlen.
      simpl in Hlen. specialize (Huniq uid m). lia.
    + intros Hsome. by apply upsert_replaces.
Qed.

(** C2, as the code has it: with the session identifier present and a user
    signed in, [stopTracking] leaves no row for (U, M) in the table when the
    Store carries out the delete request, and the rows of every other key
    are the ones the table had, unchanged and in the same order; when the
    request fails the table is what it was. *)
Theorem stopTracking_removes_sample matchId amb w uid m :
  truthy matchId = Some m → auth_user amb = Some uid →
  let tbl' := live_locations (stopTracking matchId amb w) in
  (request_error amb = None →
     samples uid m tbl' = [] ∧
     filter (λ r, ¬ key_is uid m r) tbl' = filter (λ r, ¬ key_is uid m r) (live_locations w) ∧
     (∀ u' m', ¬ (u' = uid ∧ m' = m) → samples u' m' tbl' = samples u' m' (live_locations w))) ∧
  (∀ e, request_error amb = Some e → tbl' = live_locations w).
Proof.
  intros Hm Hu tbl'. subst tbl'. rewrite stopTracking_table, Hm, Hu. split.
  - intros ->. split; [apply delete_samples_same|]. split; [apply delete_others|].
    intros u' m' Hne. by apply delete_samples_other.
  - by intros e ->.
Qed.

(** C2, as the claim has it, fails when the delete request does not go
    through: U1 stops sharing in "M1" while offline, [stopTracking] runs to
    its end (the toast is shown) and U1's row is still in the table. *)
Lemma stopTracking_delete_can_fail :
  truthy (Some "M1") = Some "M1" ∧ auth_user as_U1_offline = Some "U1" ∧
  samples "U1" "M1"
    (live_locations (stopTracking (Some "M1") as_U1_offline shared_session)) = [sample_U1] ∧
  toasts (stopTracking (Some "M1") as_U1_offline shared_session) = [toast_stopped].
Proof. vm_compute. repeat split; reflexivity. Qed.

End publisher_facts.

Section tracking_facts.
Implicit Types (w : world) (amb : ambient) (matchId : option string).

Lemma startTracking_unavailable matchId w :
  available (geolocation w) = false → startTracking matchId w = toast toast_unsupported w.
Proof. intros Hno. unfold startTracking. by rewrite Hno. Qed.

Lemma never_started_step w e : never_started w → never_started (step w e).
Proof.
  intros (Hno & Hs & Hr & Hw). unfold never_started.
  destruct e as [matchId amb|matchId|matchId amb|i c amb|i message|amb|]; simpl.
  - unfold session_effect. destruct (truthy matchId) as [m|]; [|done]. simpl.
    destruct (fetchLocations_frame m amb w) as (-> & -> & _ & -> & _). done.
  - rewrite startTracking_unavailable by done. done.
  - unfold stopTracking.
    destruct (watchId (rendered w)), (truthy matchId), (auth_user amb), (request_error amb);
      simpl; rewrite ?Hw; done.
  - unfold find_watch. rewrite Hw. done.
  - unfold find_watch. rewrite Hw. done.
  - unfold on_notification. destruct (channel w) as [m|]; [|done].
    destruct (fetchLocations_frame m amb w) as (-> & -> & _ & -> & _). done.
  - unfold render. destruct (decide _); simpl; [done|].
    destruct (watchId (rendered w)); simpl; rewrite ?Hw; done.
Qed.

Lemma never_started_run es w : never_started w → never_started (run es w).
Proof.
  revert w. induction es as [|e es IH]; intros w Hw; [done|].
  apply IH. by apply never_started_step.
Qed.

(** C3: without the location capability [startTracking] only shows the
    "Geolocation is not supported" toast: the watches, the hook's state and
    the table are what they were.  After any history on such a device the
    tracking flag is therefore still false and no watch is registered. *)
Theorem startTracking_without_capability matchId w :
  available (geolocation w) = false →
  let w' := startTracking matchId w in
  toasts w' = toasts w ++ [toast_unsupported] ∧
  geolocation w' = geolocation w ∧
  state w' = state w ∧
  live_locations w' = live_locations w ∧
  (∀ es tbl, w = run es (initial_world false tbl) →
     isTracking (state w') = false ∧ watches (geolocation w') = []).
Proof.
  intros Hno w'. subst w'. rewrite startTracking_unavailable by done.
  do 4 (split; [reflexivity|]).
  intros es tbl ->. simpl.
  destruct (never_started_run es (initial_world false tbl)) as (_ & Hs & _ & Hw); [done|].
  by split.
Qed.

(** C4: the sample built from a position carries its latitude and longitude
    as they are, into the [LocationData] and into the object upserted; an
    accuracy, heading or speed that is missing or null in the position is no
    number in either: [heading] and [speed] become [undefined], [accuracy]
    is passed on as it came. *)
Theorem to_location_keeps_fields (c : Coords.t) uid m at_ :
  let l := to_location c in
  let p := upsert_payload uid m l at_ in
  (LocationData.latitude l = Coords.latitude c ∧
   LocationData.longitude l = Coords.longitude c ∧
   Store.p_latitude p = Coords.latitude c ∧
   Store.p_longitude p = Coords.longitude c) ∧
  (is_absent (Coords.accuracy c) →
     is_absent (LocationData.accuracy l) ∧ is_absent (Store.p_accuracy p) ∧
     ¬ is_num (Store.p_accuracy p)) ∧
  (is_absent (Coords.heading c) →
     LocationData.heading l = Undefined ∧ Store.p_heading p = Undefined) ∧
  (is_absent (Coords.speed c) →
     LocationData.speed l = Undefined ∧ Store.p_speed p = Undefined).
Proof.
  intros l p. subst l p. simpl. split; [done|].
  split; [|split]; intros [-> | ->]; simpl; repeat split;
    solve [by left | by right | by intros [x Hx] | done].
Qed.

End tracking_facts.

(** ** Fetching and re-fetching *)

Section fetch_facts.
Implicit Types (w : world) (amb : ambient) (matchId : option string).

Lemma fetchLocations_failed m amb w e :
  request_error amb = Some e → fetchLocations m amb w = count_select w.
Proof. intros He. unfold fetchLocations, Store.read. by rewrite He. Qed.

Lemma fetchLocations_succeeded m amb w :
  request_error amb = None →
  fetchLocations m amb w =
  set_state (setTrackedUsers (TrackedUser.of_row <$> Store.select m (live_locations w)))
    (count_select w).
Proof. intros He. unfold fetchLocations, Store.read. by rewrite He. Qed.

(** C8, as the code has it: a read that fails is reported nowhere, on the
    first fetch of the session as little as on a re-fetch after a
    notification: no toast, nothing on the console, and the hook's state,
    the tracked users among it, is what it was. *)
Theorem fetch_error_not_reported matchId m amb w e :
  truthy matchId = Some m → request_error amb = Some e →
  (toasts (session_effect matchId amb w) = toasts w ∧
   console (session_effect matchId amb w) = console w ∧
   state (session_effect matchId amb w) = state w ∧
   trackedUsers (state (session_effect matchId amb w)) = trackedUsers (state w)) ∧
  (channel w = Some m →
   toasts (on_notification amb w) = toasts w ∧
   console (on_notification amb w) = console w ∧
   state (on_notification amb w) = state w ∧
   trackedUsers (state (on_notification amb w)) = trackedUsers (state w)).
Proof.
  intros Hm He. split.
  - unfold session_effect. rewrite Hm, (fetchLocations_failed _ _ _ e He). done.
  - intros Hc. unfold on_notification. rewrite Hc, (fetchLocations_failed _ _ _ e He). done.
Qed.

(** C8, as the claim has it, fails on the first fetch: the read of session
    "M1" ends in an error and the user is shown nothing. *)
Lemma initial_fetch_error_shows_nothing :
  Store.error (Store.read as_U1_offline "M1" (live_locations shared_session))
    = Some "TypeError: Failed to fetch" ∧
  toasts (session_effect (Some "M1") as_U1_offline shared_session) = [] ∧
  console (session_effect (Some "M1") as_U1_offline shared_session) = [] ∧
  select_requests (session_effect (Some "M1") as_U1_offline shared_session) = 1%nat.
Proof. vm_compute. repeat split; reflexivity. Qed.

End fetch_facts.

(** ** Watches *)

Section watch_facts.
Implicit Types (w : world) (amb : ambient) (matchId : option string) (g : Geolocation).

Lemma clearWatch_ids i g j :
  j ∈ watch_id <$> watches (clearWatch i g) ↔ j ≠ i ∧ j ∈ watch_id <$> watches g.
Proof.
  simpl. rewrite !list_elem_of_fmap. split.
  - intros (k & -> & Hk). apply list_elem_of_filter in Hk as [Hne Hk]. eauto.
  - intros (Hne & k & -> & Hk). exists k. split; [done|]. by apply list_elem_of_filter.
Qed.

Lemma watch_cleanup_ids o g j :
  j ∈ watch_id <$> watches (watch_cleanup o g) ↔ o ≠ Some j ∧ j ∈ watch_id <$> watches g.
Proof.
  destruct o as [i|]; simpl.
  - rewrite (clearWatch_ids i g j). split; intros [? ?]; split; congruence.
  - split; [intros ?; by split|by intros [_ ?]].
Qed.

Lemma watch_cleanup_next o g : next_watch (watch_cleanup o g) = next_watch g.
Proof. by destruct o. Qed.

Lemma watchPosition_ids matchId g j :
  j ∈ watch_id <$> watches (watchPosition matchId g) ↔
  j ∈ watch_id <$> watches g ∨ j = next_watch g.
Proof.
  simpl. rewrite fmap_app, elem_of_app. simpl. rewrite list_elem_of_singleton. done.
Qed.

Lemma stopTracking_geolocation matchId amb w :
  geolocation (stopTracking matchId amb w) = watch_cleanup (watchId (rendered w)) (geolocation w).
Proof.
  unfold stopTracking.
  destruct (watchId (rendered w)), (truthy matchId), (auth_user amb), (request_error amb);
    reflexivity.
Qed.

Lemma stopTracking_hook matchId amb w :
  rendered (stopTracking matchId amb w) = rendered w ∧
  isTracking (state (stopTracking matchId amb w)) = false ∧
  currentLocation (state (stopTracking matchId amb w)) = None ∧
  watchId (state (stopTracking matchId amb w)) =
    match watchId (rendered w) with Some _ => None | None => watchId (state w) end.
Proof.
  unfold stopTracking.
  destruct (watchId (rendered w)), (truthy matchId), (auth_user amb), (request_error amb);
    repeat split; reflexivity.
Qed.

Lemma unmount_geolocation w :
  geolocation (unmount w) = watch_cleanup (watchId (rendered w)) (geolocation w).
Proof. reflexivity. Qed.

Lemma render_geolocation w :
  geolocation (render w) =
  if decide (watchId (state w) = watchId (rendered w)) then geolocation w
  else watch_cleanup (watchId (rendered w)) (geolocation w).
Proof. unfold render. by destruct (decide _). Qed.

Lemma render_hook w : rendered (render w) = state w ∧ state (render w) = state w.
Proof. unfold render. by destruct (decide _). Qed.

Lemma ids_issued_step w e : ids_issued w → ids_issued (step w e).
Proof.
  intros (Ha & Hr & Hs). unfold ids_issued, active in *.
  destruct e as [matchId amb|matchId|matchId amb|i c amb|i message|amb|]; cbn [step].
  - unfold session_effect. destruct (truthy matchId) as [m|]; [|done]. simpl.
    destruct (fetchLocations_frame m amb w) as (-> & _ & -> & -> & _). done.
  - unfold startTracking. destruct (available (geolocation w)); [|done]. simpl.
    split; [|split].
    + intros i Hi. rewrite fmap_app, elem_of_app in Hi. simpl in Hi.
      rewrite list_elem_of_singleton in Hi. destruct Hi as [Hi| ->]; [|lia].
      apply Ha in Hi. lia.
    + intros i Hi. apply Hr in Hi. lia.
    + intros i [= <-]. lia.
  - rewrite stopTracking_geolocation, watch_cleanup_next.
    destruct (stopTracking_hook matchId amb w) as (-> & _ & _ & ->).
    split; [|split]; [|done|].
    + intros i Hi. apply watch_cleanup_ids in Hi as [_ Hi]. auto.
    + destruct (watchId (rendered w)); [done|auto].
  - destruct (find_watch i (geolocation w)) as [k|]; [|done]. unfold on_position.
    destruct (updateLocation_frame (watch_matchId k) (to_location c) amb
      (set_state (setCurrentLocation (Some (to_location c))) w)) as (-> & -> & -> & _).
    done.
  - by destruct (find_watch i (geolocation w)).
  - unfold on_notification. destruct (channel w) as [m|]; [|done].
    destruct (fetchLocations_frame m amb w) as (-> & _ & -> & -> & _). done.
  - rewrite render_geolocation. destruct (render_hook w) as [-> ->].
    destruct (decide _); [done|]. rewrite watch_cleanup_next.
    split; [|done]. intros i Hi. apply watch_cleanup_ids in Hi as [_ Hi]. auto.
Qed.

Lemma ids_issued_run es capable tbl : ids_issued (run es (initial_world capable tbl)).
Proof.
  assert (Hinit : ids_issued (initial_world capable tbl)).
  { unfold ids_issued, active. simpl. split; [|done]. intros i Hi. by apply elem_of_nil in Hi. }
  revert Hinit. generalize (initial_world capable tbl).
  induction es as [|e es IH]; intros w Hw; [done|].
  apply IH. by apply ids_issued_step.
Qed.

(** C10, as the code has it: [startTracking] cancels nothing, it registers
    a new watch [j] and stores [j] over whatever identifier was there.  When
    the earlier watch [i] had been rendered, the re-render that the new
    [watchId] brings about runs the cleanup of the watch effect, which
    cancels [i]; [stopTracking] or the unmount after it cancel [j], and
    neither watch is left.  Only when [startTracking] runs twice with no
    render in between does the earlier watch [j] stay registered, through
    the render, [stopTracking] and the unmount, which cancel [j + 1] alone. *)
Theorem startTracking_again_prior_watch matchId w :
  ids_issued w → available (geolocation w) = true →
  let j := next_watch (geolocation w) in
  let w1 := startTracking matchId w in
  (watchId (state w1) = Some j ∧ active j w1 ∧ ∀ i, active i w → active i w1 ∧ i ≠ j) ∧
  (∀ i, watchId (rendered w) = Some i → active i w →
     let w2 := render w1 in
     (watchId (rendered w2) = Some j ∧ ¬ active i w2 ∧ active j w2) ∧
     (∀ amb, ¬ active i (stopTracking matchId amb w2) ∧
             ¬ active j (stopTracking matchId amb w2)) ∧
     (¬ active i (unmount w2) ∧ ¬ active j (unmount w2))) ∧
  (let w2 := render (startTracking matchId w1) in
   (watchId (rendered w2) = Some (j + 1) ∧ active j w2 ∧ active (j + 1) w2) ∧
   (∀ amb, active j (stopTracking matchId amb w2) ∧
           ¬ active (j + 1) (stopTracking matchId amb w2)) ∧
   (active j (unmount w2) ∧ ¬ active (j + 1) (unmount w2))).
Proof.
  intros (Ha & Hr & _) Hav j w1.
  assert (Hw1 : watchId (state w1) = Some j ∧ rendered w1 = rendered w ∧
                geolocation w1 = watchPosition matchId (geolocation w)).
  { subst w1. unfold startTracking. rewrite Hav. done. }
  destruct Hw1 as (Hs1 & Hr1 & Hg1).
  unfold active in *. split; [|split].
  - split; [done|]. rewrite Hg1. split.
    + apply watchPosition_ids. by right.
    + intros i Hi. split; [apply watchPosition_ids; by left|].
      apply Ha in Hi. subst j. lia.
  - intros i Hri Hi. set (w2 := render w1).
    assert (Hji : j ≠ i) by (apply Ha in Hi; subst j; lia).
    assert (Hg2 : geolocation w2 = clearWatch i (watchPosition matchId (geolocation w))).
    { subst w2. rewrite render_geolocation, Hs1, Hr1, Hri, Hg1.
      rewrite decide_False by congruence. done. }
    assert (Hr2 : watchId (rendered w2) = Some j).
    { subst w2. destruct (render_hook w1) as [-> _]. done. }
    split; [|split].
    + rewrite Hg2, !clearWatch_ids, !watchPosition_ids. split; [done|].
      split; [tauto|auto].
    + intros amb. rewrite stopTracking_geolocation, Hr2, Hg2. simpl watch_cleanup.
      rewrite !clearWatch_ids. tauto.
    + rewrite unmount_geolocation, Hr2, Hg2. simpl watch_cleanup.
      rewrite !clearWatch_ids. tauto.
  - set (w2 := render (startTracking matchId w1)).
    assert (Hw1' : watchId (state (startTracking matchId w1)) = Some (j + 1) ∧
                   rendered (startTracking matchId w1) = rendered w ∧
                   geolocation (startTracking matchId w1)
                   = watchPosition matchId (watchPosition matchId (geolocation w))).
    { unfold startTracking at 1 2 3. rewrite Hg1. simpl available. rewrite Hav.
      simpl. rewrite Hr1, Hg1. done. }
    destruct Hw1' as (Hs2 & Hr2 & Hg2).
    assert (Hold : ∀ i', watchId (rendered w) = Some i' → i' ≠ j ∧ i' ≠ j + 1).
    { intros i' Hi'. apply Hr in Hi'. subst j. lia. }
    assert (Hin : ∀ g i', i' ∈ watch_id <$> watches
                    (watchPosition matchId (watchPosition matchId g))
                  ↔ i' ∈ watch_id <$> watches g ∨ i' = next_watch g ∨ i' = next_watch g + 1).
    { intros g i'. rewrite !watchPosition_ids. simpl. tauto. }
    assert (Hg3 : geolocation w2 = watch_cleanup (watchId (rendered w))
                    (watchPosition matchId (watchPosition matchId (geolocation w)))).
    { subst w2. rewrite render_geolocation, Hs2, Hr2, Hg2.
      destruct (decide (Some (j + 1) = watchId (rendered w))) as [Heq|_]; [|done].
      symmetry in Heq. apply Hold in Heq. lia. }
    assert (Hr3 : watchId (rendered w2) = Some (j + 1)).
    { subst w2. destruct (render_hook (startTracking matchId w1)) as [-> _]. done. }
    assert (Hj : j ∈ watch_id <$> watches (geolocation w2) ∧
                 j + 1 ∈ watch_id <$> watches (geolocation w2)).
    { rewrite Hg3, !watch_cleanup_ids, !Hin. subst j. split; (split; [|tauto]).
      - intros Heq. apply Hold in Heq. lia.
      - intros Heq. apply Hold in Heq. lia. }
    destruct Hj as [Hj Hj1].
    split; [done|]. split.
    + intros amb. rewrite stopTracking_geolocation, Hr3. simpl watch_cleanup.
      rewrite !clearWatch_ids. split; [split; [lia|done]|]. intros [? _]. lia.
    + rewrite unmount_geolocation, Hr3. simpl watch_cleanup.
      rewrite !clearWatch_ids. split; [split; [lia|done]|]. intros [? _]. lia.
Qed.

(** C10, as the claim has it, fails: this device is sharing (watch 1),
    [startTracking] runs again (watch 2) and React re-renders; watch 1 is
    cancelled by then, and after [stopTracking], or after the unmount, no
    watch at all is left. *)
Lemma second_start_leaves_no_earlier_watch :
  (isTracking (rendered sharing) = true ∧ watchId (rendered sharing) = Some 1 ∧
   watch_id <$> watches (geolocation sharing) = [1]) ∧
  (watchId (rendered sharing_again) = Some 2 ∧
   watch_id <$> watches (geolocation sharing_again) = [2]) ∧
  watches (geolocation (stopTracking (Some "M1") as_U1 sharing_again)) = [] ∧
  watches (geolocation (unmount sharing_again)) = [].
Proof. vm_compute. repeat split; reflexivity. Qed.

End watch_facts.

(** ** The marker effect *)

Section marker_facts.
Implicit Types (v : view) (u : TrackedUser.t) (users : list TrackedUser.t)
  (k : string) (mk : Marker) (p : LngLat).

Lemma setLngLat_same mk : setLngLat (lngLat mk) mk = mk.
Proof. by destruct mk. Qed.

Lemma find_user_None k users : find_user k users = None ↔ k ∉ user_ids users.
Proof.
  unfold find_user, user_ids. induction users as [|u users IH]; simpl.
  - split; [intros _; apply not_elem_of_nil|done].
  - rewrite not_elem_of_cons. case_bool_decide as Hk.
    + split; [done|]. intros [Hne _]. by destruct Hne.
    + rewrite IH. split; [intros ?; split; [congruence|done]|by intros [_ ?]].
Qed.

Lemma find_user_Some k users : is_Some (find_user k users) ↔ k ∈ user_ids users.
Proof.
  destruct (find_user k users) as [u|] eqn:Hf.
  - split; [intros _|by eauto].
    destruct (decide (k ∈ user_ids users)) as [|Hno]; [done|].
    apply find_user_None in Hno. congruence.
  - apply find_user_None in Hf. split; [by intros [? [=]]|done].
Qed.

(** *** Placing *)

Lemma place_lookup_ne v u k :
  TrackedUser.user_id u ≠ k → markersRef (place v u) !! k = markersRef v !! k.
Proof.
  intros Hne. unfold place.
  destruct (markersRef v !! TrackedUser.user_id u); simpl; by rewrite lookup_insert_ne.
Qed.

Lemma place_lookup_moved v u mk :
  markersRef v !! TrackedUser.user_id u = Some mk →
  place v u = with_markers (insert (TrackedUser.user_id u) (setLngLat (position_of u) mk)) v.
Proof. intros Hk. unfold place. by rewrite Hk. Qed.

Lemma place_lookup_created v u :
  markersRef v !! TrackedUser.user_id u = None → place v u = create_marker u v.
Proof. intros Hk. unfold place. by rewrite Hk. Qed.

Lemma place_frame v u :
  mapLoaded (place v u) = mapLoaded v ∧ map_current (place v u) = map_current v ∧
  removed (place v u) = removed v ∧ (created v ≤ created (place v u))%nat.
Proof.
  unfold place. destruct (markersRef v !! TrackedUser.user_id u); simpl; auto with lia.
Qed.

Lemma place_all_frame users v :
  mapLoaded (foldl place v users) = mapLoaded v ∧
  map_current (foldl place v users) = map_current v ∧
  removed (foldl place v users) = removed v ∧
  (created v ≤ created (foldl place v users))%nat.
Proof.
  revert v. induction users as [|u users IH]; intros v; simpl; [auto|].
  destruct (IH (place v u)) as (-> & -> & -> & Hc).
  destruct (place_frame v u) as (-> & -> & -> & Hc'). auto with lia.
Qed.

Lemma final_position_any k users p q :
  k ∈ user_ids users → final_position k users p = final_position k users q.
Proof.
  unfold final_position, user_ids. revert p q.
  induction users as [|u users IH]; intros p q Hk; simpl.
  - by apply elem_of_nil in Hk.
  - rewrite fmap_cons, elem_of_cons in Hk.
    destruct (decide (TrackedUser.user_id u = k)) as [Heq|Hne]; [done|].
    apply IH. destruct Hk as [Hk|Hk]; [congruence|done].
Qed.

(** A marker that is there is moved, never replaced. *)
Lemma place_all_lookup_kept users v k mk :
  markersRef v !! k = Some mk →
  markersRef (foldl place v users) !! k
  = Some (setLngLat (final_position k users (lngLat mk)) mk).
Proof.
  unfold final_position. revert v mk.
  induction users as [|u users IH]; intros v mk Hk; simpl.
  - by rewrite setLngLat_same.
  - destruct (decide (TrackedUser.user_id u = k)) as [<-|Hne].
    + rewrite (place_lookup_moved v u mk Hk).
      erewrite IH; [|simpl; apply lookup_insert_eq]. done.
    + apply IH. by rewrite place_lookup_ne.
Qed.

Lemma place_all_lookup_absent users v k :
  markersRef v !! k = None → k ∉ user_ids users →
  markersRef (foldl place v users) !! k = None.
Proof.
  unfold user_ids. revert v. induction users as [|u users IH]; intros v Hk Hno; simpl; [done|].
  rewrite fmap_cons, not_elem_of_cons in Hno. destruct Hno as [Hne Hno].
  apply IH; [|done]. rewrite place_lookup_ne; done.
Qed.

(** A user without a marker gets a new one, which ends where the user is. *)
Lemma place_all_lookup_new users v k p :
  markersRef v !! k = None → k ∈ user_ids users →
  ∃ mk, markersRef (foldl place v users) !! k = Some mk ∧
        lngLat mk = final_position k users p ∧
        (created v ≤ marker_id mk < created (foldl place v users))%nat.
Proof.
  unfold user_ids. revert v p.
  induction users as [|u users IH]; intros v p Hk Hin; simpl.
  - by apply elem_of_nil in Hin.
  - rewrite fmap_cons, elem_of_cons in Hin.
    destruct (decide (TrackedUser.user_id u = k)) as [<-|Hne].
    + rewrite (place_lookup_created v u Hk).
      eexists. split; [apply place_all_lookup_kept; simpl; apply lookup_insert_eq|].
      split.
      * reflexivity.
      * simpl. pose proof (place_all_frame users (create_marker u v)) as (_ & _ & _ & Hc).
        simpl in Hc. lia.
    + destruct Hin as [Hin|Hin]; [congruence|].
      destruct (IH (place v u) p) as (mk & Hmk & Hpos & Hid); [by rewrite place_lookup_ne|done|].
      exists mk. split; [done|]. split.
      * exact Hpos.
      * pose proof (place_frame v u) as (_ & _ & _ & Hc). lia.
Qed.

Lemma place_all_lookup_is_Some users v k :
  is_Some (markersRef (foldl place v users) !! k) ↔
  is_Some (markersRef v !! k) ∨ k ∈ user_ids users.
Proof.
  destruct (markersRef v !! k) as [mk|] eqn:Hk.
  - rewrite (place_all_lookup_kept users v k mk Hk). split; eauto.
  - destruct (decide (k ∈ user_ids users)) as [Hin|Hno].
    + destruct (place_all_lookup_new users v k (0%float, 0%float) Hk Hin) as (mk & -> & _).
      split; eauto.
    + rewrite (place_all_lookup_absent users v k Hk Hno).
      split; [by intros [? [=]]|]. intros [[? [=]]|?]; done.
Qed.

(** When every user has a marker already, none is constructed. *)
Lemma place_all_present users v :
  (∀ k, k ∈ user_ids users → is_Some (markersRef v !! k)) →
  foldl place v users = with_markers (λ _, markersRef (foldl place v users)) v.
Proof.
  unfold user_ids. revert v. induction users as [|u users IH]; intros v Hall; simpl.
  - by destruct v.
  - destruct (Hall (TrackedUser.user_id u)) as [mk Hmk]; [rewrite fmap_cons; by left|].
    rewrite (place_lookup_moved v u mk Hmk). rewrite IH at 1; [done|].
    intros k Hk. simpl. destruct (decide (TrackedUser.user_id u = k)) as [<-|Hne].
    + rewrite lookup_insert_eq. eauto.
    + rewrite lookup_insert_ne by done. apply Hall. rewrite fmap_cons. by right.
Qed.

(** *** Pruning *)

Lemma prune_frame users v k :
  mapLoaded (prune users v k) = mapLoaded v ∧ map_current (prune users v k) = map_current v ∧
  created (prune users v k) = created v.
Proof.
  unfold prune. destruct (find_user k users); [done|].
  by destruct (markersRef v !! k).
Qed.

Lemma prune_all_frame users ks v :
  mapLoaded (foldl (prune users) v ks) = mapLoaded v ∧
  map_current (foldl (prune users) v ks) = map_current v ∧
  created (foldl (prune users) v ks) = created v.
Proof.
  revert v. induction ks as [|k ks IH]; intros v; simpl; [done|].
  destruct (IH (prune users v k)) as (-> & -> & ->). apply prune_frame.
Qed.

Lemma prune_lookup users v k k' :
  markersRef (prune users v k) !! k' =
  if decide (k' = k ∧ k ∉ user_ids users) then None else markersRef v !! k'.
Proof.
  unfold prune. destruct (find_user k users) as [u|] eqn:Hf.
  - rewrite decide_False; [done|]. intros [_ Hno].
    apply find_user_None in Hno. congruence.
  - apply find_user_None in Hf.
    destruct (markersRef v !! k) as [mk|] eqn:Hk; simpl.
    + destruct (decide (k' = k)) as [->|Hne].
      * rewrite lookup_delete_eq. by rewrite decide_True.
      * rewrite lookup_delete_ne by done. rewrite decide_False; [done|]. by intros [? _].
    + destruct (decide (k' = k ∧ k ∉ user_ids users)) as [[-> _]|]; done.
Qed.

Lemma prune_all_lookup users ks v k :
  markersRef (foldl (prune users) v ks) !! k =
  if decide (k ∈ ks ∧ k ∉ user_ids users) then None else markersRef v !! k.
Proof.
  revert v. induction ks as [|k0 ks IH]; intros v; cbn [foldl].
  - rewrite decide_False; [done|]. intros [Hin _]. by apply elem_of_nil in Hin.
  - rewrite IH, prune_lookup.
    destruct (decide (k ∈ ks ∧ k ∉ user_ids users)) as [[Hin Hno]|Hn1].
    + rewrite decide_True; [done|]. split; [by right|done].
    + destruct (decide (k = k0 ∧ k0 ∉ user_ids users)) as [[-> Hno]|Hn2].
      * rewrite decide_True; [done|]. split; [by left|done].
      * rewrite decide_False; [done|]. intros [Hin Hno].
        apply elem_of_cons in Hin as [->|Hin]; [by apply Hn2|by apply Hn1].
Qed.

(** Nothing is pruned when every key belongs to a user. *)
Lemma prune_all_nothing users ks v :
  (∀ k, k ∈ ks → k ∈ user_ids users) → foldl (prune users) v ks = v.
Proof.
  revert v. induction ks as [|k ks IH]; intros v Hall; simpl; [done|].
  assert (Hk : prune users v k = v).
  { unfold prune. destruct (find_user_Some k users) as [_ Hs].
    destruct Hs as [u ->]; [apply Hall; by left|done]. }
  rewrite Hk. apply IH. intros k' Hk'. apply Hall. by right.
Qed.

Lemma marker_keys_spec v k : k ∈ marker_keys v ↔ is_Some (markersRef v !! k).
Proof.
  unfold marker_keys. rewrite list_elem_of_fmap. split.
  - intros ([k' mk] & -> & Hin). apply elem_of_map_to_list in Hin. eauto.
  - intros [mk Hmk]. exists (k, mk). split; [done|]. by apply elem_of_map_to_list.
Qed.

(** *** One reconciliation *)

Lemma reconcile_markers users v :
  markersRef (reconcile users v) =
  markersRef (foldl (prune users) (foldl place v users) (marker_keys (foldl place v users))).
Proof. unfold reconcile. by destruct users. Qed.

Lemma reconcile_lookup users v k :
  markersRef (reconcile users v) !! k =
  if decide (k ∈ user_ids users) then markersRef (foldl place v users) !! k else None.
Proof.
  rewrite reconcile_markers, prune_all_lookup.
  destruct (decide (k ∈ user_ids users)) as [Hin|Hno].
  - rewrite decide_False; [done|]. by intros [_ ?].
  - destruct (decide (k ∈ marker_keys (foldl place v users) ∧ k ∉ user_ids users))
      as [_|Hn]; [done|].
    destruct (markersRef (foldl place v users) !! k) as [mk|] eqn:Hk; [|done].
    exfalso. apply Hn. split; [|done]. apply marker_keys_spec. eauto.
Qed.

Lemma reconcile_frame users v :
  mapLoaded (reconcile users v) = mapLoaded v ∧
  created (reconcile users v) = created (foldl place v users) ∧
  map_current (reconcile users v) =
    match users with
    | [] => map_current v
    | _ :: _ => fitBounds (position_of <$> users) <$> map_current v
    end.
Proof.
  unfold reconcile. cbv zeta.
  destruct (prune_all_frame users (marker_keys (foldl place v users)) (foldl place v users))
    as (Hl & Hm & Hc).
  destruct (place_all_frame users v) as (Hl' & Hm' & _).
  rewrite Hl' in Hl. rewrite Hm' in Hm. revert Hl Hm Hc.
  generalize (foldl (prune users) (foldl place v users) (marker_keys (foldl place v users))).
  intros v2 Hl Hm Hc.
  destruct users; unfold with_map; cbn [mapLoaded created map_current];
    rewrite ?Hl, ?Hm, ?Hc; done.
Qed.

(** C7: with no tracked user the effect leaves the map's view as it was;
    and whenever the effect does change the view, it fits it to the
    positions of a non-empty list of users: bounds over no point are never
    built, let alone fitted. *)
Theorem empty_set_keeps_viewport v :
  map_current (markers_effect [] v) = map_current v ∧
  (∀ users, map_current (markers_effect users v) = map_current v ∨
     (users ≠ [] ∧
      map_current (markers_effect users v)
      = Some (FitBounds (position_of <$> users) 50 15))).
Proof.
  assert (Hall : ∀ users, map_current (markers_effect users v) = map_current v ∨
     (users ≠ [] ∧
      map_current (markers_effect users v)
      = Some (FitBounds (position_of <$> users) 50 15))).
  { intros users. unfold markers_effect. destruct (mapLoaded v); [|by left].
    destruct (map_current v) as [c|] eqn:Hc; [|by left].
    destruct (reconcile_frame users v) as (_ & _ & ->).
    destruct users as [|u users]; [by left|]. right. rewrite Hc. done. }
  split; [|done].
  unfold markers_effect. destruct (mapLoaded v); [|done].
  destruct (map_current v) as [c|] eqn:Hc; [|done].
  destruct (reconcile_frame [] v) as (_ & _ & ->). done.
Qed.

(** *** What is removed *)

Lemma prune_removed users v k :
  removed (prune users v k) = removed v ++ option_list (dropped users (markersRef v) k).
Proof.
  unfold prune, dropped. destruct (find_user k users) as [u|] eqn:Hf.
  - rewrite decide_True; [by rewrite app_nil_r|].
    apply find_user_Some. eauto.
  - apply find_user_None in Hf. rewrite decide_False by done.
    destruct (markersRef v !! k); simpl; by rewrite ?app_nil_r.
Qed.

Lemma dropped_prune users v k k' :
  k' ≠ k → dropped users (markersRef (prune users v k)) k' = dropped users (markersRef v) k'.
Proof.
  intros Hne. unfold dropped. rewrite prune_lookup.
  destruct (decide (k' ∈ user_ids users)); [done|].
  rewrite decide_False; [done|]. by intros [? _].
Qed.

Lemma omap_agree {A B} (f g : A → option B) (l : list A) :
  (∀ x, x ∈ l → f x = g x) → omap f l = omap g l.
Proof.
  induction l as [|x l IH]; intros Hfg; [done|].
  cbn [omap list_omap]. rewrite (Hfg x) by by left.
  rewrite IH; [done|]. intros y Hy. apply Hfg. by right.
Qed.

Lemma prune_all_removed users ks v :
  NoDup ks →
  removed (foldl (prune users) v ks) = removed v ++ omap (dropped users (markersRef v)) ks.
Proof.
  intros Hnd. revert v. induction Hnd as [|k ks Hk Hnd IH]; intros v; cbn [foldl].
  - simpl. by rewrite app_nil_r.
  - rewrite IH, prune_removed, <- app_assoc. f_equal.
    assert (Hext : omap (dropped users (markersRef (prune users v k))) ks
                   = omap (dropped users (markersRef v)) ks).
    { apply omap_agree. intros k' Hk'. apply dropped_prune. by intros ->. }
    rewrite Hext. cbn [omap list_omap].
    by destruct (dropped users (markersRef v) k).
Qed.

Lemma reconcile_removed users v :
  removed (reconcile users v) =
  removed v ++ omap (dropped users (markersRef (foldl place v users)))
                 (marker_keys (foldl place v users)).
Proof.
  destruct (place_all_frame users v) as (_ & _ & <- & _).
  rewrite <- prune_all_removed by apply NoDup_fst_map_to_list.
  unfold reconcile. by destruct users.
Qed.

Lemma omap_only {A B} `{EqDecision A} (f : A → option B) (l : list A) (b : A) (x : B) :
  NoDup l → b ∈ l → f b = Some x → (∀ a, a ∈ l → a ≠ b → f a = None) → omap f l = [x].
Proof.
  intros Hnd. induction Hnd as [|a l Ha Hnd IH]; intros Hb Hfb Hrest.
  - by apply elem_of_nil in Hb.
  - cbn [omap list_omap]. destruct (decide (a = b)) as [->|Hne].
    + rewrite Hfb. f_equal.
      rewrite (omap_agree f (λ _, None) l).
      * clear. by induction l.
      * intros y Hy. apply Hrest; [by right|]. by intros ->.
    + rewrite Hrest; [|by left|done]. apply IH; [|done|].
      * by apply elem_of_cons in Hb as [->|Hb].
      * intros y Hy Hne0. apply Hrest; [by right|done].
Qed.

(** *** The invariant on marker objects *)

Lemma markers_ok_place v u : markers_ok v → markers_ok (place v u).
Proof.
  intros [Hlt Hinj]. unfold place.
  destruct (markersRef v !! TrackedUser.user_id u) as [mk|] eqn:Hk; split; simpl.
  - intros k mk'. rewrite lookup_insert. case_decide as Hd.
    + intros [= <-]. simpl. eauto.
    + eauto.
  - intros k1 k2 mk1 mk2. rewrite !lookup_insert.
    destruct (decide (TrackedUser.user_id u = k1)) as [<-|Hn1],
             (decide (TrackedUser.user_id u = k2)) as [<-|Hn2]; try done.
    + intros [= <-] H2 Hid. simpl in Hid. eauto.
    + intros H1 [= <-] Hid. simpl in Hid. eauto.
    + eauto.
  - intros k mk'. rewrite lookup_insert. case_decide as Hd.
    + intros [= <-]. simpl. lia.
    + intros Hk'. apply Hlt in Hk'. lia.
  - intros k1 k2 mk1 mk2. rewrite !lookup_insert.
    destruct (decide (TrackedUser.user_id u = k1)) as [<-|Hn1],
             (decide (TrackedUser.user_id u = k2)) as [<-|Hn2]; try done.
    + intros [= <-] H2 Hid. simpl in Hid. apply Hlt in H2. lia.
    + intros H1 [= <-] Hid. simpl in Hid. apply Hlt in H1. lia.
    + eauto.
Qed.

Lemma markers_ok_prune users v k : markers_ok v → markers_ok (prune users v k).
Proof.
  intros [Hlt Hinj]. unfold prune. destruct (find_user k users); [done|].
  destruct (markersRef v !! k) as [mk|] eqn:Hk; [|done]. split; simpl.
  - intros k' mk'. rewrite lookup_delete_Some. intros [_ ?]. eauto.
  - intros k1 k2 mk1 mk2. rewrite !lookup_delete_Some. intros [_ ?] [_ ?]. eauto.
Qed.

Lemma markers_ok_reconcile users v : markers_ok v → markers_ok (reconcile users v).
Proof.
  intros Hok. unfold reconcile. cbv zeta.
  assert (Hok1 : markers_ok (foldl place v users)).
  { revert v Hok. induction users as [|u users IH]; intros v Hok; [done|].
    simpl. apply IH. by apply markers_ok_place. }
  assert (Hok2 : ∀ ks v1, markers_ok v1 → markers_ok (foldl (prune users) v1 ks)).
  { induction ks as [|k ks IH]; intros v1 Hv1; [done|].
    simpl. apply IH. by apply markers_ok_prune. }
  specialize (Hok2 (marker_keys (foldl place v users)) _ Hok1).
  by destruct users.
Qed.

Lemma markers_ok_effect users v : markers_ok v → markers_ok (markers_effect users v).
Proof.
  intros Hok. unfold markers_effect. destruct (mapLoaded v); [|done].
  destruct (map_current v); [|done]. by apply markers_ok_reconcile.
Qed.

Lemma markers_ok_initial : markers_ok initial_view.
Proof. split; simpl; intros *; by rewrite lookup_empty. Qed.

(** *** Reconciling twice *)

Lemma reconcile_settled users v k :
  k ∈ user_ids users →
  ∃ mk, markersRef (reconcile users v) !! k = Some mk ∧
        ∀ p, lngLat mk = final_position k users p.
Proof.
  intros Hin. rewrite reconcile_lookup, decide_True by done.
  destruct (markersRef v !! k) as [mk|] eqn:Hk.
  - rewrite (place_all_lookup_kept users v k mk Hk). eexists. split; [done|].
    intros p. simpl. by apply final_position_any.
  - destruct (place_all_lookup_new users v k (0%float, 0%float) Hk Hin) as (mk & -> & Hp & _).
    exists mk. split; [done|]. intros p. rewrite Hp. by apply final_position_any.
Qed.

Lemma place_all_settled users v :
  (∀ k mk, markersRef v !! k = Some mk →
     k ∈ user_ids users ∧ lngLat mk = final_position k users (lngLat mk)) →
  (∀ k, k ∈ user_ids users → is_Some (markersRef v !! k)) →
  foldl place v users = v.
Proof.
  intros Hpos Hall. rewrite place_all_present by done.
  assert (Heq : markersRef (foldl place v users) = markersRef v).
  { apply map_eq. intros k. destruct (markersRef v !! k) as [mk|] eqn:Hk.
    - rewrite (place_all_lookup_kept users v k mk Hk).
      destruct (Hpos k mk Hk) as [_ <-]. by rewrite setLngLat_same.
    - apply place_all_lookup_absent; [done|]. intros Hin.
      destruct (Hall k Hin) as [mk Hmk]. congruence. }
  rewrite Heq. by destruct v.
Qed.

Lemma reconcile_twice users v : reconcile users (reconcile users v) = reconcile users v.
Proof.
  set (v3 := reconcile users v).
  assert (Hplace : foldl place v3 users = v3).
  { apply place_all_settled.
    - intros k mk Hk. subst v3. rewrite reconcile_lookup in Hk.
      destruct (decide (k ∈ user_ids users)) as [Hin|]; [|done]. split; [done|].
      destruct (reconcile_settled users v k Hin) as (mk' & Hmk' & Hp).
      rewrite reconcile_lookup, decide_True in Hmk' by done.
      rewrite Hk in Hmk'. injection Hmk' as <-. apply Hp.
    - intros k Hin. destruct (reconcile_settled users v k Hin) as (mk & Hmk & _). eauto. }
  unfold reconcile at 1. cbv zeta. rewrite Hplace.
  rewrite prune_all_nothing.
  - destruct users as [|u users]; [done|].
    subst v3. unfold reconcile. cbv zeta. unfold with_map. simpl.
    f_equal. by destruct (map_current _).
  - intros k Hk. apply marker_keys_spec in Hk. subst v3.
    rewrite reconcile_lookup in Hk.
    destruct (decide (k ∈ user_ids users)); [done|]. by destruct Hk.
Qed.

Lemma markers_effect_twice users v :
  markers_effect users (markers_effect users v) = markers_effect users v.
Proof.
  unfold markers_effect at 2. destruct (mapLoaded v) eqn:Hl.
  - destruct (map_current v) as [c|] eqn:Hc.
    + unfold markers_effect. destruct (reconcile_frame users v) as (-> & _ & ->).
      rewrite Hl, Hc. destruct users as [|u users].
      * exact (reconcile_twice [] v).
      * exact (reconcile_twice (u :: users) v).
    + unfold markers_effect. by rewrite Hl, Hc.
  - unfold markers_effect. by rewrite Hl.
Qed.

Lemma reconcile_is_Some users v k :
  is_Some (markersRef (reconcile users v) !! k) ↔ k ∈ user_ids users.
Proof.
  rewrite reconcile_lookup. destruct (decide (k ∈ user_ids users)) as [Hin|Hno].
  - rewrite place_all_lookup_is_Some. tauto.
  - split; [by intros [? [=]]|done].
Qed.

(** C5: from markers for {A, B} to the tracked users {A, C} (in either
    order of the fetched list), one reconciliation keeps A's marker, the
    same object, at A's new position; takes B's marker off the map and out
    of [markersRef.current], and removes no other; constructs one marker, at
    C's position, an object that is neither A's nor B's marker; and leaves
    markers for A and C only. *)
Theorem reconcile_moves_A_drops_B_adds_C v (a c : TrackedUser.t) (B : string)
    (mA mB : Marker) users :
  let A := TrackedUser.user_id a in
  let C := TrackedUser.user_id c in
  markers_ok v →
  markersRef v !! A = Some mA → markersRef v !! B = Some mB →
  dom (markersRef v) = {[A; B]} →
  A ≠ B → C ≠ A → C ≠ B →
  users = [a; c] ∨ users = [c; a] →
  let v' := reconcile users v in
  markersRef v' !! A = Some (setLngLat (position_of a) mA) ∧
  (markersRef v' !! B = None ∧ removed v' = removed v ++ [marker_id mB] ∧
   marker_id mA ≠ marker_id mB) ∧
  (∃ mC, markersRef v' !! C = Some mC ∧ lngLat mC = position_of c ∧
         marker_id mC = created v ∧ created v' = S (created v) ∧
         marker_id mC ≠ marker_id mA ∧ marker_id mC ≠ marker_id mB) ∧
  (∀ k, is_Some (markersRef v' !! k) ↔ k = A ∨ k = C).
Proof.
  intros A C [Hlt Hinj] HA HB Hdom HAB HCA HCB Horder v'.
  assert (HC : markersRef v !! C = None).
  { apply not_elem_of_dom. rewrite Hdom. intros Hin.
    apply elem_of_union in Hin as [Hin|Hin]; apply elem_of_singleton in Hin; congruence. }
  assert (Hids : ∀ k, k ∈ user_ids users ↔ k = A ∨ k = C).
  { intros k. destruct Horder as [-> | ->]; unfold user_ids; simpl;
      rewrite !elem_of_cons, elem_of_nil; subst A C; tauto. }
  assert (HinA : A ∈ user_ids users) by (apply Hids; by left).
  assert (HinC : C ∈ user_ids users) by (apply Hids; by right).
  assert (HnoB : B ∉ user_ids users).
  { rewrite Hids. intros [?|?]; congruence. }
  assert (HposA : ∀ p, final_position A users p = position_of a).
  { intros p. destruct Horder as [-> | ->]; unfold final_position; simpl;
      repeat case_decide; first [done | by destruct HCA | by exfalso]. }
  assert (Hnew : markersRef (foldl place v users) !! C
                 = Some {| marker_id := created v; lngLat := position_of c;
                           popup_updated_at := TrackedUser.updated_at c |}
                 ∧ created (foldl place v users) = S (created v)).
  { destruct Horder as [-> | ->]; simpl.
    - rewrite (place_lookup_moved v a mA HA).
      rewrite place_lookup_created by (simpl; by rewrite lookup_insert_ne).
      simpl. by rewrite lookup_insert_eq.
    - rewrite (place_lookup_created v c HC).
      erewrite place_lookup_moved by (simpl; rewrite lookup_insert_ne; done).
      simpl. rewrite lookup_insert_ne by done. by rewrite lookup_insert_eq. }
  destruct Hnew as [HnewC Hcreated].
  subst v'. split; [|split; [|split]].
  - rewrite reconcile_lookup, decide_True by done.
    rewrite (place_all_lookup_kept users v A mA HA). by rewrite HposA.
  - split; [|split].
    + rewrite reconcile_lookup. by rewrite decide_False.
    + rewrite reconcile_removed. f_equal.
      apply (omap_only _ _ B).
      * apply NoDup_fst_map_to_list.
      * apply marker_keys_spec, place_all_lookup_is_Some. left. eauto.
      * unfold dropped. rewrite decide_False by done.
        by rewrite (place_all_lookup_kept users v B mB HB).
      * intros k Hk Hne. unfold dropped.
        destruct (decide (k ∈ user_ids users)) as [|Hno]; [done|]. exfalso.
        apply marker_keys_spec, place_all_lookup_is_Some in Hk as [Hk|Hk]; [|done].
        apply elem_of_dom in Hk. rewrite Hdom in Hk.
        apply elem_of_union in Hk as [Hk|Hk]; apply elem_of_singleton in Hk; subst k;
          [by apply Hno|done].
    + intros Hid. apply HAB. by apply (Hinj A B mA mB).
  - eexists. split; [rewrite reconcile_lookup, decide_True by done; exact HnewC|].
    simpl. destruct (reconcile_frame users v) as (_ & -> & _).
    apply Hlt in HA, HB. repeat split; [done|lia|lia].
  - intros k. rewrite reconcile_is_Some. apply Hids.
Qed.

(** C6: after a reconciliation the keys of [markersRef.current] are exactly
    the identifiers of the tracked users: a user no longer tracked has no
    marker left, and every tracked user has one.  The effect is such a
    reconciliation whenever the map has loaded. *)
Theorem reconcile_keys_are_tracked_users users v :
  dom (markersRef (reconcile users v)) = list_to_set (user_ids users) ∧
  (mapLoaded v = true → is_Some (map_current v) →
   markers_effect users v = reconcile users v).
Proof.
  split.
  - apply set_eq. intros k.
    rewrite elem_of_dom, elem_of_list_to_set. apply reconcile_is_Some.
  - intros Hl [c Hc]. unfold markers_effect. by rewrite Hl, Hc.
Qed.

End marker_facts.

(** ** Notifications *)

(** C9: a change notification on the session's channel sends one read to
    the Store; the list the read returns becomes the local list as a whole
    (a read that fails leaves the list alone); and when the rows of the
    session are those the hook already holds, running the effect on the
    re-fetched list leaves a view that had been reconciled with the list
    what it was: the same marker objects at the same places, none
    constructed, none removed. *)
Theorem notification_refetches_once_without_churn amb w m :
  channel w = Some m →
  let w' := on_notification amb w in
  select_requests w' = S (select_requests w) ∧
  trackedUsers (state w') =
    match request_error amb with
    | None => TrackedUser.of_row <$> Store.select m (live_locations w)
    | Some _ => trackedUsers (state w)
    end ∧
  (TrackedUser.of_row <$> Store.select m (live_locations w) = trackedUsers (state w) →
   ∀ v, let reconciled := markers_effect (trackedUsers (state w)) v in
        let v' := markers_effect (trackedUsers (state w')) reconciled in
        v' = reconciled ∧ markersRef v' = markersRef reconciled ∧
        created v' = created reconciled ∧ removed v' = removed reconciled).
Proof.
  intros Hc w'. subst w'. unfold on_notification. rewrite Hc.
  assert (Hlist : trackedUsers (state (fetchLocations m amb w)) =
    match request_error amb with
    | None => TrackedUser.of_row <$> Store.select m (live_locations w)
    | Some _ => trackedUsers (state w)
    end).
  { destruct (request_error amb) as [e|] eqn:He.
    - by rewrite (fetchLocations_failed m amb w e He).
    - by rewrite (fetchLocations_succeeded m amb w He). }
  split; [|split; [exact Hlist|]].
  - destruct (request_error amb) as [e|] eqn:He.
    + by rewrite (fetchLocations_failed m amb w e He).
    + by rewrite (fetchLocations_succeeded m amb w He).
  - intros Hsame v. cbv zeta.
    assert (Hus : trackedUsers (state (fetchLocations m amb w)) = trackedUsers (state w)).
    { rewrite Hlist. by destruct (request_error amb). }
    rewrite Hus, markers_effect_twice. done.
Qed.

(** C9, as the claim has it, fails when the re-fetch does: U1's row was
    deleted, the notification arrives and the one read it triggers ends in
    an error; the local list still holds U1 and U2 while the session has U2
    only. *)
Lemma failed_refetch_replaces_nothing :
  let w := stopTracking (Some "M1") as_U1 watching_M1 in
  let w' := on_notification as_U1_offline w in
  channel w = Some "M1" ∧
  select_requests w' = S (select_requests w) ∧
  TrackedUser.of_row <$> Store.select "M1" (live_locations w)
    = [TrackedUser.of_row sample_U2] ∧
  trackedUsers (state w') = [TrackedUser.of_row sample_U1; TrackedUser.of_row sample_U2].
Proof. vm_compute. repeat split; reflexivity. Qed.

(** ** The theorems at work on session "M1" *)

Lemma updateLocation_one_sample_per_pair_witness :
  let evs := [(to_location fix_1, as_U1); (to_location fix_2, as_U1_later)] in
  let tbl := live_locations (foldl (publish (Some "M1")) (initial_world true []) (take 2 evs)) in
  Store.unique_keys tbl ∧ Row.latitude <$> tbl = [10.25%float].
Proof.
  intros evs tbl. split.
  - refine (proj1 (updateLocation_one_sample_per_pair (Some "M1") (initial_world true [])
                     evs _) 2%nat).
    intros u m. simpl. lia.
  - vm_compute. reflexivity.
Defined.

Lemma stopTracking_removes_sample_witness :
  let tbl' := live_locations (stopTracking (Some "M1") as_U1 shared_session) in
  Store.samples "U1" "M1" tbl' = [] ∧
  Store.samples "U2" "M1" tbl' = [sample_U2].
Proof.
  intros tbl'.
  destruct (stopTracking_removes_sample (Some "M1") as_U1 shared_session "U1" "M1"
              eq_refl eq_refl) as [Hdone _].
  destruct (Hdone eq_refl) as (Hgone & _ & Hothers).
  split; [exact Hgone|]. refine (eq_trans (Hothers "U2" "M1" _) eq_refl).
  intros [Hu _]. discriminate Hu.
Defined.

Lemma startTracking_without_capability_witness :
  let w := run [Mount (Some "M1") as_U1; StartTracking (Some "M1"); Render]
             (initial_world false [sample_U2]) in
  isTracking (state (startTracking (Some "M1") w)) = false ∧
  watches (geolocation (startTracking (Some "M1") w)) = [] ∧
  toasts (startTracking (Some "M1") w) = [toast_unsupported; toast_unsupported] ∧
  live_locations (startTracking (Some "M1") w) = [sample_U2].
Proof.
  intros w.
  destruct (startTracking_without_capability (Some "M1") w eq_refl)
    as (Ht & _ & _ & Hl & Hrun).
  destruct (Hrun [Mount (Some "M1") as_U1; StartTracking (Some "M1"); Render]
              [sample_U2] eq_refl) as [Hflag Hwatches].
  split; [exact Hflag|]. split; [exact Hwatches|]. split; [exact Ht|exact Hl].
Defined.

Lemma to_location_keeps_fields_witness :
  LocationData.latitude (to_location fix_1) = 10%float ∧
  LocationData.heading (to_location fix_1) = Undefined ∧
  Store.p_speed (upsert_payload "U1" "M1" (to_location fix_1) (now as_U1)) = Undefined.
Proof.
  destruct (to_location_keeps_fields fix_1 "U1" "M1" (now as_U1))
    as ((Hlat & _) & _ & Hheading & Hspeed).
  destruct Hheading as (Hh & _); [right; reflexivity|].
  destruct Hspeed as (_ & Hs); [right; reflexivity|].
  split; [exact Hlat|]. split; [exact Hh|exact Hs].
Defined.

Lemma reconcile_moves_A_drops_B_adds_C_witness :
  let v' := reconcile [tracked_A_moved; tracked_C] view_A_B in
  markersRef v' !! "A" = Some (setLngLat (20.125%float, 10.25%float) marker_A) ∧
  markersRef v' !! "B" = None ∧
  removed v' = [1%nat] ∧
  (∃ mC, markersRef v' !! "C" = Some mC ∧ marker_id mC = 2%nat) ∧
  created v' = 3%nat.
Proof.
  intros v'.
  destruct (reconcile_moves_A_drops_B_adds_C view_A_B tracked_A_moved tracked_C "B"
              marker_A marker_B [tracked_A_moved; tracked_C])
    as (HA & (HB & Hrem & _) & (mC & HC & _ & Hid & Hcr & _) & _).
  - apply markers_ok_effect. split; simpl; intros *; by rewrite lookup_empty.
  - reflexivity.
  - reflexivity.
  - vm_compute. reflexivity.
  - simpl. congruence.
  - simpl. congruence.
  - simpl. congruence.
  - by left.
  - split; [exact HA|]. split; [exact HB|]. split; [exact Hrem|].
    split; [exists mC; split; [exact HC|exact Hid]|exact Hcr].
Defined.

Lemma fetch_error_not_reported_witness :
  toasts (session_effect (Some "M1") as_U1_offline watching_M1) = toasts watching_M1 ∧
  trackedUsers (state (on_notification as_U1_offline watching_M1))
  = [TrackedUser.of_row sample_U1; TrackedUser.of_row sample_U2].
Proof.
  destruct (fetch_error_not_reported (Some "M1") "M1" as_U1_offline watching_M1
              "TypeError: Failed to fetch" eq_refl eq_refl)
    as ((Ht & _) & Hrefetch).
  destruct (Hrefetch eq_refl) as (_ & _ & _ & Hus).
  split; [exact Ht|exact Hus].
Defined.

Lemma notification_refetches_once_without_churn_witness :
  select_requests (on_notification as_U1_later watching_M1) = 2%nat ∧
  trackedUsers (state (on_notification as_U1_later watching_M1))
  = [TrackedUser.of_row sample_U1; TrackedUser.of_row sample_U2] ∧
  markers_effect (trackedUsers (state (on_notification as_U1_later watching_M1)))
    (markers_effect (trackedUsers (state watching_M1)) loaded_view)
  = markers_effect (trackedUsers (state watching_M1)) loaded_view.
Proof.
  destruct (notification_refetches_once_without_churn as_U1_later watching_M1 "M1" eq_refl)
    as (Hone & Hlist & Hsame).
  destruct (Hsame eq_refl loaded_view) as (Hview & _).
  split; [exact Hone|]. split; [exact Hlist|exact Hview].
Defined.

Lemma startTracking_again_prior_watch_witness :
  let w1 := startTracking (Some "M1") sharing in
  (watchId (state w1) = Some 2 ∧ active 1 w1 ∧ active 2 w1) ∧
  (¬ active 1 (render w1) ∧ active 2 (render w1)) ∧
  ¬ active 2 (stopTracking (Some "M1") as_U1 (render w1)) ∧
  ¬ active 2 (unmount (render w1)) ∧
  active 2 (unmount (render (startTracking (Some "M1") w1))).
Proof.
  intros w1.
  assert (Hactive : active 1 sharing) by (unfold active; simpl; by left).
  destruct (startTracking_again_prior_watch (Some "M1") sharing)
    as ((Hid & Hnew & Hold) & Hrendered & (_ & _ & (Hleak & _))).
  - exact (ids_issued_run [StartTracking (Some "M1"); Render] true []).
  - reflexivity.
  - destruct (Hrendered 1 eq_refl Hactive) as ((_ & Hgone & Hkept) & Hstop & (_ & Hunmount)).
    split; [split; [exact Hid|split; [exact (proj1 (Hold 1 Hactive))|exact Hnew]]|].
    split; [split; [exact Hgone|exact Hkept]|].
    split; [exact (proj2 (Hstop as_U1))|]. split; [exact Hunmount|exact Hleak].
Defined.

Lemma reconcile_keys_are_tracked_users_witness :
  dom (markersRef (markers_effect [tracked_A_moved; tracked_C] view_A_B))
  = list_to_set (user_ids [tracked_A_moved; tracked_C]).
Proof.
  destruct (reconcile_keys_are_tracked_users [tracked_A_moved; tracked_C] view_A_B)
    as [Hkeys Heffect].
  rewrite Heffect; [exact Hkeys|reflexivity|].
  vm_compute. eexists. reflexivity.
Defined.

(** * Further properties of the code *)

(** ** What the hook writes *)

Section write_facts.
Import Store.
Implicit Types (w : world) (amb : ambient) (matchId : option string)
  (tbl : table) (p : payload) (r : Row.t).

Lemma upsert_elem uuid c p tbl r :
  r ∈ upsert uuid c p tbl →
  r ∈ tbl ∨ key_is (p_user_id p) (p_match_id p) r.
Proof.
  unfold upsert. destruct (decide (Exists _ tbl)) as [Hex|Hno].
  - rewrite list_elem_of_fmap. intros (r0 & -> & Hr0).
    destruct (decide (key_is (p_user_id p) (p_match_id p) r0)) as [Hk|Hk]; [right|by left].
    by apply updated_key.
  - rewrite elem_of_app, list_elem_of_singleton. intros [?| ->]; [by left|right].
    by apply inserted_key.
Qed.

Lemma upsert_gone uuid c p tbl r :
  r ∈ tbl → r ∉ upsert uuid c p tbl → key_is (p_user_id p) (p_match_id p) r.
Proof.
  unfold upsert. destruct (decide (Exists _ tbl)) as [Hex|Hno]; intros Hin Hout.
  - destruct (decide (key_is (p_user_id p) (p_match_id p) r)) as [Hk|Hk]; [done|].
    exfalso. apply Hout. apply list_elem_of_fmap. exists r. split; [|done].
    by rewrite decide_False.
  - exfalso. apply Hout. apply elem_of_app. by left.
Qed.

Lemma upsert_samples_elsewhere uuid c p tbl u m :
  ¬ (u = p_user_id p ∧ m = p_match_id p) →
  samples u m (upsert uuid c p tbl) = samples u m tbl.
Proof.
  intros Hne. unfold upsert. destruct (decide (Exists _ tbl)) as [_|_].
  - unfold samples. induction tbl as [|r tbl IH]; [done|].
    rewrite fmap_cons, !filter_cons.
    destruct (decide (key_is (p_user_id p) (p_match_id p) r)) as [Hk|Hk].
    + rewrite !decide_False; [done| |].
      * intros Hk'. apply Hne. destruct Hk as [<- Hm], Hk' as [<- Hm']. split; congruence.
      * rewrite updated_key. intros Hk'. apply Hne.
        destruct Hk as [<- Hm], Hk' as [<- Hm']. split; congruence.
    + destruct (decide (key_is u m r)); by rewrite IH.
  - unfold samples. rewrite filter_app, filter_cons, filter_nil.
    rewrite decide_False by (by rewrite inserted_key). by rewrite app_nil_r.
Qed.


Lemma delete_upsert uuid c p tbl :
  delete (p_user_id p) (p_match_id p) (upsert uuid c p tbl)
  = delete (p_user_id p) (p_match_id p) tbl.
Proof.
  unfold delete, upsert. destruct (decide (Exists _ tbl)) as [_|_].
  - induction tbl as [|r tbl IH]; [done|].
    rewrite fmap_cons, !(filter_cons (λ r, ¬ key_is (p_user_id p) (p_match_id p) r)).
    destruct (decide (key_is (p_user_id p) (p_match_id p) r)) as [Hk|Hk].
    + rewrite !decide_False; [done|by intros Hn; apply Hn|].
      intros Hn. apply Hn. by apply updated_key.
    + rewrite !decide_True by done. by rewrite IH.
  - rewrite filter_app, filter_cons, filter_nil.
    rewrite decide_False; [by rewrite app_nil_r|].
    intros Hn. apply Hn. by apply inserted_key.
Qed.

Lemma delete_absent u m tbl : samples u m tbl = [] → delete u m tbl = tbl.
Proof.
  unfold samples, delete. induction tbl as [|r tbl IH]; [done|].
  rewrite filter_cons, (filter_cons (λ r, ¬ key_is u m r)).
  destruct (decide (key_is u m r)) as [Hk|Hk]; [done|].
  intros Hnil. rewrite decide_True by done. by rewrite IH.
Qed.

(** X1: the hook changes, adds and removes no row but the signed-in
    user's: a row that [updateLocation] put into the table or took out of it
    (an updated row replaces the one it was) carries the user's identifier,
    so does a row [stopTracking] removed, and the rows of every other
    (user, session) pair are what they were.  The requests are thus within
    the table's INSERT, UPDATE and DELETE policies. *)
Theorem hook_touches_own_row_only matchId location amb w :
  let tbl := live_locations w in
  let written := live_locations (updateLocation matchId location amb w) in
  let stopped := live_locations (stopTracking matchId amb w) in
  (∀ r, r ∈ written → r ∉ tbl → ∃ uid, auth_user amb = Some uid ∧ own_row uid r) ∧
  (∀ r, r ∈ tbl → r ∉ written → ∃ uid, auth_user amb = Some uid ∧ own_row uid r) ∧
  (∀ r, r ∈ tbl → r ∉ stopped → ∃ uid, auth_user amb = Some uid ∧ own_row uid r) ∧
  (∀ u m, ¬ (auth_user amb = Some u ∧ truthy matchId = Some m) →
     samples u m written = samples u m tbl ∧ samples u m stopped = samples u m tbl).
Proof.
  intros tbl written stopped. subst tbl written stopped.
  rewrite updateLocation_table, stopTracking_table.
  destruct (truthy matchId) as [m|], (auth_user amb) as [uid|], (request_error amb) as [e|];
    try (repeat split; intros; done).
  split; [|split; [|split]].
  - intros r Hin Hout. exists uid. split; [done|].
    apply upsert_elem in Hin as [Hin|[Hu _]]; [done|exact Hu].
  - intros r Hin Hout. exists uid. split; [done|].
    by apply (upsert_gone _ _ _ _ _ Hin) in Hout as [Hu _].
  - intros r Hin Hout. exists uid. split; [done|].
    destruct (decide (key_is uid m r)) as [[Hu _]|Hk]; [exact Hu|].
    exfalso. apply Hout. by apply list_elem_of_filter.
  - intros u' m' Hne. split.
    + apply upsert_samples_elsewhere. simpl. intros [-> ->]. by apply Hne.
    + apply delete_samples_other. intros [-> ->]. by apply Hne.
Qed.


(** X3: sharing and then stopping leaves the table as if the user had only
    stopped; when the user had no row for the session before, the table is
    back to what it was. *)
Theorem publish_then_stop_restores matchId location amb amb' w uid m :
  truthy matchId = Some m →
  auth_user amb = Some uid → request_error amb = None →
  auth_user amb' = Some uid → request_error amb' = None →
  let w' := stopTracking matchId amb' (updateLocation matchId location amb w) in
  live_locations w' = delete uid m (live_locations w) ∧
  (samples uid m (live_locations w) = [] → live_locations w' = live_locations w).
Proof.
  intros Hm Hu Hok Hu' Hok' w'. subst w'.
  rewrite stopTracking_table, Hm, Hu', Hok', updateLocation_table, Hm, Hu, Hok.
  pose proof (delete_upsert (new_uuid amb) (server_now amb)
    (upsert_payload uid m location (now amb)) (live_locations w)) as Hdel.
  simpl in Hdel. rewrite Hdel. split; [done|]. apply delete_absent.
Qed.

(** X4: neither an error of the location capability nor a write that fails,
    nor a position that arrives with nobody signed in, stops the
    monitoring: the position still becomes the current location, the
    watches and the tracking flag are what they were, a failed write shows
    the user nothing (one console line), and after an error event the next
    position is published as it would have been without it. *)
Theorem position_failures_are_not_fatal (k : Watch) c amb w i message :
  (let w' := on_position k c amb w in
   currentLocation (state w') = Some (to_location c) ∧
   geolocation w' = geolocation w ∧ isTracking (state w') = isTracking (state w) ∧
   watchId (state w') = watchId (state w) ∧ toasts w' = toasts w ∧
   (auth_user amb = None ∨ request_error amb ≠ None →
      live_locations w' = live_locations w)) ∧
  (let w' := step w (PositionError i message) in
   geolocation w' = geolocation w ∧ state w' = state w ∧
   live_locations w' = live_locations w ∧
   live_locations (step w' (Position i c amb)) = live_locations (step w (Position i c amb)) ∧
   state (step w' (Position i c amb)) = state (step w (Position i c amb))).
Proof.
  split.
  - intros w'. subst w'. unfold on_position.
    destruct (updateLocation_frame (watch_matchId k) (to_location c) amb
      (set_state (setCurrentLocation (Some (to_location c))) w)) as (-> & -> & _ & ->).
    do 5 (split; [done|]). intros Hfail. rewrite updateLocation_table. simpl.
    destruct (truthy (watch_matchId k)), (auth_user amb), (request_error amb);
      try done; by destruct Hfail.
  - cbn [step]. destruct (find_watch i (geolocation w)) as [k'|] eqn:Hk; [|by rewrite Hk].
    unfold on_position_error at 1 2 3. simpl. do 3 (split; [done|]).
    unfold on_position_error. simpl. rewrite Hk. unfold on_position.
    rewrite !updateLocation_table. simpl. split.
    + destruct (truthy (watch_matchId k')), (auth_user amb), (request_error amb); done.
    + destruct (updateLocation_frame (watch_matchId k') (to_location c) amb
        (set_state (setCurrentLocation (Some (to_location c)))
           (toast (toast_location_error message)
              (console_error "Geolocation error:" w)))) as (_ & -> & _).
      by destruct (updateLocation_frame (watch_matchId k') (to_location c) amb
        (set_state (setCurrentLocation (Some (to_location c))) w)) as (_ & -> & _).
Qed.

End write_facts.

(** ** The hook under the component *)

Section component_facts.
Implicit Types (w : world) (amb : ambient) (e : ui_event).

Lemma render_settled w :
  watchId (state w) = watchId (rendered w) → render w = commit w.
Proof. intros Heq. unfold render. by rewrite decide_True. Qed.

Lemma one_watch_quiet w w' :
  one_watch w →
  geolocation w' = geolocation w → rendered w' = rendered w →
  isTracking (state w') = isTracking (state w) →
  watchId (state w') = watchId (state w) →
  (currentLocation (state w') = currentLocation (state w) ∨ is_Some (watchId (state w))) →
  one_watch (render w').
Proof.
  intros [Hc Hw] Hg Hr Hi Hid Hloc.
  rewrite render_settled by (by rewrite Hid, Hr, Hc).
  unfold one_watch. simpl. split; [done|].
  rewrite Hid, Hi, Hg. rewrite Hc in Hw.
  destruct (watchId (state w)) as [i|]; [done|].
  destruct Hw as (? & Hnone & ?). repeat split; try done.
  by destruct Hloc as [-> |[? [=]]].
Qed.

Lemma one_watch_mounted matchId amb capable tbl :
  one_watch (mounted matchId amb capable tbl).
Proof.
  unfold mounted, session_effect.
  destruct (truthy (Some matchId)) as [m|].
  - unfold fetchLocations, Store.read. by destruct (request_error amb).
  - done.
Qed.

Lemma single_watch_cleared (ws : list Watch) i :
  watch_id <$> ws = [i] → filter (λ k, watch_id k ≠ i) ws = [].
Proof.
  destruct ws as [|k [|k' ws]]; [done| |done].
  intros [= <-]. rewrite filter_cons, filter_nil. by rewrite decide_False by (by intros ?).
Qed.

Lemma one_watch_click matchId amb w :
  one_watch w → one_watch (render (click matchId amb w)).
Proof.
  intros [Hc Hw]. unfold click.
  destruct (watchId (rendered w)) as [i|] eqn:Hid.
  - destruct Hw as [-> Hws]. cbv iota.
    assert (Hst : geolocation (stopTracking matchId amb w) = clearWatch i (geolocation w) ∧
                  rendered (stopTracking matchId amb w) = rendered w ∧
                  isTracking (state (stopTracking matchId amb w)) = false ∧
                  currentLocation (state (stopTracking matchId amb w)) = None ∧
                  watchId (state (stopTracking matchId amb w)) = None).
    { rewrite stopTracking_geolocation, Hid.
      destruct (stopTracking_hook matchId amb w) as (-> & -> & -> & ->).
      by rewrite Hid. }
    destruct Hst as (Hg & Hr & Hi & Hl & Hn).
    unfold render. rewrite Hn, Hr, Hid, decide_False by done.
    unfold one_watch, commit, set_geolocation. cbn [rendered state geolocation].
    rewrite Hn, Hi, Hl, Hg. simpl.
    rewrite (single_watch_cleared _ _ Hws). by rewrite filter_nil.
  - destruct Hw as (Hi & Hnone & Hws). rewrite Hi. cbv iota. unfold startTracking.
    destruct (available (geolocation w)) eqn:Hav.
    + unfold render. simpl. rewrite Hid, decide_False by done.
      unfold one_watch. simpl. by rewrite Hws.
    + apply (one_watch_quiet w); try done.
      * split; [done|]. by rewrite Hid.
      * by left.
Qed.

Lemma one_watch_step matchId w e : one_watch w → one_watch (ui_step matchId w e).
Proof.
  intros Hw. unfold ui_step. destruct e as [amb|i c amb|i message|amb].
  - by apply one_watch_click.
  - cbn [step]. destruct (find_watch i (geolocation w)) as [k|] eqn:Hk.
    + unfold on_position.
      destruct (updateLocation_frame (watch_matchId k) (to_location c) amb
        (set_state (setCurrentLocation (Some (to_location c))) w)) as (Hg & Hs & Hr & _).
      apply (one_watch_quiet w); rewrite ?Hg, ?Hs, ?Hr; try done.
      right. destruct Hw as [<- Hw]. destruct (watchId (rendered w)); [by eauto|].
      destruct Hw as (_ & _ & Hws). unfold find_watch in Hk. by rewrite Hws in Hk.
    + apply (one_watch_quiet w); try done. by left.
  - cbn [step]. destruct (find_watch i (geolocation w)).
    + apply (one_watch_quiet w); try done. by left.
    + apply (one_watch_quiet w); try done. by left.
  - cbn [step]. unfold on_notification. destruct (channel w) as [m|].
    + destruct (fetchLocations_frame m amb w) as (Hg & Hi & Hid & Hr & _).
      apply (one_watch_quiet w); try done.
      left. unfold fetchLocations, Store.read. by destruct (request_error amb).
    + apply (one_watch_quiet w); try done. by left.
Qed.

Lemma one_watch_run matchId es w : one_watch w → one_watch (ui_run matchId es w).
Proof.
  revert w. induction es as [|e es IH]; intros w Hw; [done|].
  apply IH. by apply one_watch_step.
Qed.

(** X5: driven through the component (its button, the device, the channel,
    and a render after each event), the hook never has more than one watch
    registered; the one there is is the one whose identifier it holds;
    [isTracking] is true exactly when there is one, and the current
    location is shown only then.  So the button never starts a second watch
    over a running one. *)
Theorem component_keeps_one_watch matchId amb capable tbl es :
  let w := ui_run matchId es (mounted matchId amb capable tbl) in
  rendered w = state w ∧
  watch_id <$> watches (geolocation w) = option_list (watchId (rendered w)) ∧
  (length (watches (geolocation w)) ≤ 1)%nat ∧
  (isTracking (rendered w) = true ↔ watches (geolocation w) ≠ []) ∧
  (isTracking (rendered w) = false → currentLocation (rendered w) = None).
Proof.
  intros w.
  destruct (one_watch_run matchId es _ (one_watch_mounted matchId amb capable tbl))
    as [Hc Hw]. fold w in Hc, Hw.
  split; [done|]. destruct (watchId (rendered w)) as [i|].
  - destruct Hw as [Hi Hws]. split; [done|].
    assert (Hlen : length (watches (geolocation w)) = 1%nat).
    { by rewrite <- (length_fmap watch_id), Hws. }
    split; [lia|]. split; [|by rewrite Hi].
    split; [|done]. intros _ Hnil. by rewrite Hnil in Hlen.
  - destruct Hw as (Hi & Hl & Hws). rewrite Hws. split; [done|].
    split; [simpl; lia|]. split; [|done]. rewrite Hi. by split.
Qed.

(** X6: closing the component after any such history cancels the watch
    that is left and releases the channel, so that no watch stays
    registered and a later notification fetches nothing; the table is not
    touched: a participant who was sharing keeps the row. *)
Theorem unmount_cancels_and_keeps_row matchId amb capable tbl es amb' :
  let w := ui_run matchId es (mounted matchId amb capable tbl) in
  watches (geolocation (unmount w)) = [] ∧
  channel (unmount w) = None ∧
  on_notification amb' (unmount w) = unmount w ∧
  live_locations (unmount w) = live_locations w.
Proof.
  intros w.
  destruct (one_watch_run matchId es _ (one_watch_mounted matchId amb capable tbl))
    as [_ Hw]. fold w in Hw.
  split; [|done]. rewrite unmount_geolocation.
  destruct (watchId (rendered w)) as [i|]; simpl.
  - destruct Hw as [_ Hws]. by apply single_watch_cleared.
  - by destruct Hw as (_ & _ & ->).
Qed.

Lemma ui_step_requests matchId w e :
  channel (ui_step matchId w e) = channel w ∧
  select_requests (ui_step matchId w e) =
    (select_requests w + if is_change e then (if channel w is Some _ then 1 else 0) else 0)%nat.
Proof.
  assert (Hrender : ∀ w', channel (render w') = channel w' ∧
                          select_requests (render w') = select_requests w').
  { intros w'. unfold render. by destruct (decide _). }
  unfold ui_step. destruct (Hrender
    match e with
    | Click amb => click (Some matchId) amb w
    | Fix i c amb => step w (Position i c amb)
    | FixError i message => step w (PositionError i message)
    | Changed amb => step w (Notification amb)
    end) as [-> ->].
  destruct e as [amb|i c amb|i message|amb]; simpl.
  - unfold click, startTracking, stopTracking.
    destruct (isTracking (rendered w)), (watchId (rendered w)), (matchId),
      (auth_user amb), (request_error amb), (available (geolocation w));
      simpl; split; (reflexivity || lia).
  - destruct (find_watch i (geolocation w)) as [k|]; [|split; (reflexivity || lia)].
    unfold on_position, updateLocation.
    destruct (truthy (watch_matchId k)), (auth_user amb), (request_error amb);
      simpl; split; (reflexivity || lia).
  - destruct (find_watch i (geolocation w)); simpl; split; (reflexivity || lia).
  - unfold on_notification. destruct (channel w) as [m|] eqn:Hc.
    + unfold fetchLocations, Store.read. destruct (request_error amb); simpl;
        rewrite ?Hc; split; (reflexivity || lia).
    + rewrite Hc. split; (reflexivity || lia).
Qed.

(** X7: a mounted component with a session identifier keeps its one
    channel through every event and has sent one read for the mount and
    one for each change notification, no more; without a session
    identifier it never subscribes and never reads. *)
Theorem reads_are_mount_plus_notifications matchId amb capable tbl es :
  let w := ui_run matchId es (mounted matchId amb capable tbl) in
  channel w = truthy (Some matchId) ∧
  select_requests w = if truthy (Some matchId) is Some _ then S (changes es) else 0%nat.
Proof.
  intros w. subst w.
  assert (Hgen : ∀ w0, channel (ui_run matchId es w0) = channel w0 ∧
    select_requests (ui_run matchId es w0)
    = (select_requests w0 + if channel w0 is Some _ then changes es else 0)%nat).
  { induction es as [|e es IH]; intros w0.
    - simpl. split; [done|]. destruct (channel w0); unfold changes; simpl; lia.
    - cbn [ui_run foldl]. fold (ui_run matchId es (ui_step matchId w0 e)).
      destruct (IH (ui_step matchId w0 e)) as [-> ->].
      destruct (ui_step_requests matchId w0 e) as [-> ->]. split; [done|].
      unfold changes. rewrite filter_cons.
      destruct (is_change e), (channel w0); simpl; lia. }
  destruct (Hgen (mounted matchId amb capable tbl)) as [-> ->].
  unfold mounted, session_effect.
  destruct (truthy (Some matchId)) as [m|] eqn:Hm.
  - assert (m = matchId) as -> by (destruct matchId; simpl in Hm; congruence).
    unfold fetchLocations, Store.read, render.
    destruct (request_error amb); simpl; split; (reflexivity || lia).
  - simpl. split; (reflexivity || lia).
Qed.

End component_facts.

(** ** What a fetch brings *)

Section fetched_facts.
Import Store.
Implicit Types (w : world) (amb : ambient) (tbl : table) (r : Row.t).

Lemma samples_elem u m tbl r : r ∈ tbl → key_is u m r → samples u m tbl ≠ [].
Proof.
  intros Hin Hk Hnil. unfold samples in Hnil.
  by apply (filter_nil_not_elem_of _ _ r Hnil Hk).
Qed.

Lemma selected_user_ids m tbl u :
  u ∈ Row.user_id <$> select m tbl ↔ samples u m tbl ≠ [].
Proof.
  unfold select, samples. rewrite list_elem_of_fmap. split.
  - intros (r & -> & Hr). apply list_elem_of_filter in Hr as [Hm Hr].
    by apply (samples_elem _ _ _ r).
  - intros Hne. destruct (filter (key_is u m) tbl) as [|r rows] eqn:Hf; [done|].
    assert (Hr : r ∈ filter (key_is u m) tbl) by (rewrite Hf; by left).
    apply list_elem_of_filter in Hr as [[Hu Hm] Hr].
    exists r. split; [done|]. by apply list_elem_of_filter.
Qed.

Lemma unique_keys_tail r tbl : unique_keys (r :: tbl) → unique_keys tbl.
Proof.
  intros Huniq u m. specialize (Huniq u m). unfold samples in *.
  rewrite filter_cons in Huniq. destruct (decide (key_is u m r)); simpl in Huniq; lia.
Qed.

Lemma selected_user_ids_NoDup m tbl :
  unique_keys tbl → NoDup (Row.user_id <$> select m tbl).
Proof.
  unfold select. induction tbl as [|r tbl IH]; intros Huniq; [constructor|].
  rewrite filter_cons. destruct (decide (in_match m r)) as [Hm|Hm].
  - rewrite fmap_cons. apply NoDup_cons. split; [|by eapply IH, unique_keys_tail].
    intros Hin. apply selected_user_ids in Hin.
    specialize (Huniq (Row.user_id r) m). unfold samples in Huniq, Hin.
    rewrite filter_cons, decide_True in Huniq by done. simpl in Huniq.
    destruct (filter (key_is (Row.user_id r) m) tbl); [done|simpl in Huniq; lia].
  - by eapply IH, unique_keys_tail.
Qed.

Lemma fetched_user_ids m amb w :
  request_error amb = None →
  user_ids (trackedUsers (state (fetchLocations m amb w)))
  = Row.user_id <$> select m (live_locations w).
Proof.
  intros Hok. rewrite (fetchLocations_succeeded m amb w Hok). simpl.
  unfold user_ids. by rewrite <- list_fmap_compose.
Qed.

(** X8: after a fetch that succeeds, a participant is in the local list
    exactly when the table has a row for them in the session; when the
    table has one row per (user, session) pair, no participant is listed
    twice, and the list has one entry per row of the session. *)
Theorem fetched_users_are_the_session_rows m amb w :
  request_error amb = None →
  let users := trackedUsers (state (fetchLocations m amb w)) in
  (∀ u, u ∈ user_ids users ↔ samples u m (live_locations w) ≠ []) ∧
  length users = length (select m (live_locations w)) ∧
  (unique_keys (live_locations w) → NoDup (user_ids users)).
Proof.
  intros Hok users. subst users. rewrite (fetched_user_ids m amb w Hok).
  split; [intros u; apply selected_user_ids|]. split.
  - rewrite (fetchLocations_succeeded m amb w Hok). simpl. apply length_fmap.
  - apply selected_user_ids_NoDup.
Qed.

End fetched_facts.

(** ** More on the marker effect *)

Section churn_facts.
Implicit Types (v : view) (u : TrackedUser.t) (users : list TrackedUser.t)
  (k : string) (mk : Marker).

Lemma final_position_absent k users p :
  k ∉ user_ids users → final_position k users p = p.
Proof.
  unfold final_position, user_ids. revert p.
  induction users as [|u users IH]; intros p Hno; [done|].
  rewrite fmap_cons, not_elem_of_cons in Hno. destruct Hno as [Hne Hno].
  cbn [foldl]. rewrite decide_False by done. by apply IH.
Qed.

Lemma final_position_distinct users u p :
  NoDup (user_ids users) → u ∈ users →
  final_position (TrackedUser.user_id u) users p = position_of u.
Proof.
  unfold user_ids. revert p. induction users as [|u0 users IH]; intros p Hnd Hin.
  - by apply elem_of_nil in Hin.
  - rewrite fmap_cons in Hnd. apply NoDup_cons in Hnd as [Hfresh Hnd].
    apply elem_of_cons in Hin as [->|Hin].
    + unfold final_position. cbn [foldl]. rewrite decide_True by done.
      by apply (final_position_absent (TrackedUser.user_id u0) users).
    + unfold final_position. cbn [foldl].
      destruct (decide (TrackedUser.user_id u0 = TrackedUser.user_id u)) as [Heq|_].
      * exfalso. apply Hfresh. rewrite Heq. apply list_elem_of_fmap. eauto.
      * by apply IH.
Qed.

(** X9: after a reconciliation every tracked user has a marker at the
    position of the user's last entry in the list; when no user is listed
    twice, as for a list fetched from the table, at the user's own
    position. *)
Theorem reconcile_puts_markers_at_positions users v u :
  u ∈ users →
  ∃ mk, markersRef (reconcile users v) !! TrackedUser.user_id u = Some mk ∧
        (∀ p, lngLat mk = final_position (TrackedUser.user_id u) users p) ∧
        (NoDup (user_ids users) → lngLat mk = position_of u).
Proof.
  intros Hin.
  assert (Hid : TrackedUser.user_id u ∈ user_ids users).
  { apply list_elem_of_fmap. eauto. }
  destruct (reconcile_settled users v _ Hid) as (mk & Hmk & Hpos).
  exists mk. split; [done|]. split; [done|].
  intros Hnd. rewrite (Hpos (0%float, 0%float)). by apply final_position_distinct.
Qed.

Lemma place_all_popup users v k u :
  markersRef v !! k = None → find_user k users = Some u →
  ∃ mk, markersRef (foldl place v users) !! k = Some mk ∧
        popup_updated_at mk = TrackedUser.updated_at u.
Proof.
  unfold find_user. revert v. induction users as [|u0 users IH]; intros v Hk Hf; [done|].
  cbn [List.find] in Hf. cbn [foldl]. case_bool_decide as Heq.
  - injection Hf as <-. subst k. rewrite (place_lookup_created v u0 Hk).
    eexists. split; [apply place_all_lookup_kept; simpl; apply lookup_insert_eq|done].
  - apply IH; [|done]. by rewrite place_lookup_ne.
Qed.

(** X10: a reconciliation never replaces, nor re-labels, the marker of a
    user who stays: it is the same object with the popup it was built with,
    even when the user's sample has a newer [updated_at]; only its position
    changes.  A user without a marker gets one labelled with the
    [updated_at] of the user's first entry in the list. *)
Theorem reconcile_keeps_marker_and_popup users v k :
  k ∈ user_ids users →
  match markersRef v !! k with
  | Some mk =>
    ∃ mk', markersRef (reconcile users v) !! k = Some mk' ∧
           marker_id mk' = marker_id mk ∧
           popup_updated_at mk' = popup_updated_at mk
  | None =>
    ∃ mk' u, markersRef (reconcile users v) !! k = Some mk' ∧
             find_user k users = Some u ∧
             popup_updated_at mk' = TrackedUser.updated_at u ∧
             (created v ≤ marker_id mk')%nat
  end.
Proof.
  intros Hin. rewrite reconcile_lookup, decide_True by done.
  destruct (markersRef v !! k) as [mk|] eqn:Hk.
  - rewrite (place_all_lookup_kept users v k mk Hk). by eexists.
  - destruct (find_user_Some k users) as [_ [u Hu]]; [done|].
    destruct (place_all_popup users v k u Hk Hu) as (mk' & Hmk' & Hpop).
    destruct (place_all_lookup_new users v k (0%float, 0%float) Hk Hin)
      as (mk'' & Hmk'' & _ & Hid & _).
    rewrite Hmk' in Hmk''. injection Hmk'' as <-.
    exists mk', u. by rewrite Hmk'.
Qed.

Lemma place_dom v u :
  dom (markersRef (place v u)) = {[TrackedUser.user_id u]} ∪ dom (markersRef v).
Proof.
  unfold place. destruct (markersRef v !! TrackedUser.user_id u); simpl; apply dom_insert_L.
Qed.

Lemma place_created v u :
  created (place v u) =
  (created v + if decide (TrackedUser.user_id u ∈ dom (markersRef v)) then 0 else 1)%nat.
Proof.
  unfold place. destruct (markersRef v !! TrackedUser.user_id u) as [mk|] eqn:Hk; simpl.
  - rewrite decide_True by (apply elem_of_dom; eauto). lia.
  - rewrite decide_False by (by apply not_elem_of_dom). lia.
Qed.

Lemma place_all_created users v :
  created (foldl place v users) =
  (created v + size (list_to_set (user_ids users) ∖ dom (markersRef v) : gset string))%nat.
Proof.
  unfold user_ids. revert v. induction users as [|u users IH]; intros v.
  - cbn [foldl fmap list_fmap list_to_set foldr].
    assert ((∅ : gset string) ∖ dom (markersRef v) = ∅) as ->.
    { apply set_eq. intros y. rewrite elem_of_difference.
      split; [intros [Hy _]|intros Hy]; by apply not_elem_of_empty in Hy. }
    rewrite size_empty. lia.
  - cbn [foldl]. rewrite IH, place_dom, place_created, fmap_cons, list_to_set_cons.
    remember (list_to_set (TrackedUser.user_id <$> users) : gset string) as T eqn:HT.
    remember (dom (markersRef v)) as D eqn:HD.
    remember (TrackedUser.user_id u) as x eqn:Hx0. clear HT HD Hx0 IH.
    destruct (decide (x ∈ D)) as [Hx|Hx].
    + assert (({[x]} ∪ T) ∖ D = T ∖ ({[x]} ∪ D)) as ->; [|lia].
      apply set_eq. intros y.
      rewrite !elem_of_difference, !elem_of_union, !elem_of_singleton.
      destruct (decide (y = x)) as [->|Hne]; tauto.
    + assert (({[x]} ∪ T) ∖ D = {[x]} ∪ T ∖ ({[x]} ∪ D)) as ->.
      { apply set_eq. intros y.
        rewrite elem_of_difference, !elem_of_union, elem_of_difference, elem_of_union,
          !elem_of_singleton.
        destruct (decide (y = x)) as [->|Hne]; tauto. }
      rewrite (size_union {[x]} (T ∖ ({[x]} ∪ D))), size_singleton; [lia|].
      intros y Hy1 Hy2. apply elem_of_singleton in Hy1 as ->.
      apply elem_of_difference in Hy2 as [_ Hy2]. apply Hy2, elem_of_union. left.
      by apply elem_of_singleton.
Qed.

Lemma reconcile_removed_elem users v i :
  i ∈ removed (reconcile users v) ↔
  i ∈ removed v ∨
  ∃ k mk, markersRef v !! k = Some mk ∧ (k ∉ user_ids users) ∧ marker_id mk = i.
Proof.
  rewrite reconcile_removed, elem_of_app, list_elem_of_omap.
  split; (intros [?|Hdrop]; [by left|right]).
  - destruct Hdrop as (k & Hk & Hd). unfold dropped in Hd.
    destruct (decide (k ∈ user_ids users)) as [|Hno]; [done|].
    destruct (markersRef v !! k) as [mk|] eqn:Hmk.
    + rewrite (place_all_lookup_kept users v k mk Hmk) in Hd. simpl in Hd.
      injection Hd as <-. by exists k, mk.
    + by rewrite (place_all_lookup_absent users v k Hmk Hno) in Hd.
  - destruct Hdrop as (k & mk & Hmk & Hno & <-). exists k. split.
    + apply marker_keys_spec, place_all_lookup_is_Some. left. eauto.
    + unfold dropped. rewrite decide_False by done.
      by rewrite (place_all_lookup_kept users v k mk Hmk).
Qed.

(** X11: a reconciliation constructs exactly as many markers as there are
    tracked users without one, and removes exactly the markers of the keys
    that belong to no tracked user: nothing else is constructed or
    removed. *)
Theorem reconcile_churn_is_minimal users v :
  created (reconcile users v) =
    (created v + size (list_to_set (user_ids users) ∖ dom (markersRef v) : gset string))%nat ∧
  (∀ i, i ∈ removed (reconcile users v) ↔
        i ∈ removed v ∨
        ∃ k mk, markersRef v !! k = Some mk ∧ (k ∉ user_ids users) ∧ marker_id mk = i).
Proof.
  split; [|apply reconcile_removed_elem].
  destruct (reconcile_frame users v) as (_ & -> & _). apply place_all_created.
Qed.

End churn_facts.

(** ** The view over its life *)

Section view_facts.
Implicit Types (v : view) (u : TrackedUser.t) (users : list TrackedUser.t)
  (k : string) (mk : Marker).

Lemma removed_ok_place v u :
  markers_ok v → removed_ok v → removed_ok (place v u).
Proof.
  intros [Hlt _] (Hrem & Hreg & Hnd). unfold place.
  destruct (markersRef v !! TrackedUser.user_id u) as [mk|] eqn:Hk;
    (split; [|split]); simpl; try done.
  - intros k mk'. rewrite lookup_insert. case_decide.
    + intros [= <-]. simpl. eauto.
    + eauto.
  - intros i Hi. apply Hrem in Hi. lia.
  - intros k mk'. rewrite lookup_insert. case_decide.
    + intros [= <-]. simpl. intros Hin. apply Hrem in Hin. lia.
    + eauto.
Qed.

Lemma removed_ok_prune users v k :
  markers_ok v → removed_ok v → removed_ok (prune users v k).
Proof.
  intros [Hlt Hinj] (Hrem & Hreg & Hnd). unfold prune.
  destruct (find_user k users); [done|].
  destruct (markersRef v !! k) as [mk|] eqn:Hk; [|done].
  split; [|split]; simpl.
  - intros i. rewrite elem_of_app, list_elem_of_singleton. intros [Hi| ->]; eauto.
  - intros k' mk'. rewrite lookup_delete_Some. intros [Hne Hk'].
    rewrite elem_of_app, list_elem_of_singleton. intros [Hin|Heq].
    + by apply (Hreg k' mk').
    + apply Hne. symmetry. by apply (Hinj k' k mk' mk).
  - apply NoDup_app. split; [done|]. split; [|apply NoDup_singleton].
    intros i Hi. rewrite list_elem_of_singleton. intros ->. by apply (Hreg k mk).
Qed.

Lemma view_ok_reconcile users v :
  markers_ok v → removed_ok v →
  markers_ok (reconcile users v) ∧ removed_ok (reconcile users v).
Proof.
  intros Hok Hrem.
  assert (H1 : markers_ok (foldl place v users) ∧ removed_ok (foldl place v users)).
  { revert v Hok Hrem. induction users as [|u users IH]; intros v Hok Hrem; [done|].
    cbn [foldl]. apply IH; [by apply markers_ok_place|by apply removed_ok_place]. }
  assert (H2 : ∀ ks v1, markers_ok v1 → removed_ok v1 →
            markers_ok (foldl (prune users) v1 ks) ∧ removed_ok (foldl (prune users) v1 ks)).
  { induction ks as [|k ks IH]; intros v1 Hv1 Hr1; [done|].
    cbn [foldl]. apply IH; [by apply markers_ok_prune|by apply removed_ok_prune]. }
  destruct H1 as [Hok1 Hrem1].
  specialize (H2 (marker_keys (foldl place v users)) _ Hok1 Hrem1).
  unfold reconcile. by destruct users.
Qed.

Lemma view_ok_step v e :
  markers_ok v ∧ removed_ok v →
  markers_ok (view_step v e) ∧ removed_ok (view_step v e).
Proof.
  intros [Hok Hrem]. destruct e as [| |users|loc found]; cbn [view_step].
  - unfold init_map. by destruct (map_current v).
  - done.
  - unfold markers_effect. destruct (mapLoaded v); [|done].
    destruct (map_current v); [|done]. by apply view_ok_reconcile.
  - unfold pickup_effect. destruct (mapLoaded v); [|done].
    destruct (map_current v), (truthy (Some loc)), found; try done.
    destruct Hok as [Hlt Hinj], Hrem as (Hr & Hreg & Hnd).
    split.
    + split; simpl; [|done]. intros k mk Hk. apply Hlt in Hk. lia.
    + split; [|split]; simpl; [|done|done]. intros i Hi. apply Hr in Hi. lia.
Qed.

Lemma loaded_before_markers_step v e :
  (markersRef v ≠ ∅ → mapLoaded v = true ∧ is_Some (map_current v)) →
  markersRef (view_step v e) ≠ ∅ →
  mapLoaded (view_step v e) = true ∧ is_Some (map_current (view_step v e)).
Proof.
  intros Hinv. destruct e as [| |users|loc found]; cbn [view_step].
  - unfold init_map. destruct (map_current v) eqn:Hm; [by rewrite Hm|]. simpl.
    intros Hne. split; [by apply Hinv|by eauto].
  - simpl. intros Hne. split; [done|by apply Hinv].
  - unfold markers_effect. destruct (mapLoaded v) eqn:Hl; [|by rewrite Hl].
    destruct (map_current v) as [c|] eqn:Hm; [|by rewrite Hl, Hm].
    intros _. destruct (reconcile_frame users v) as (-> & _ & ->).
    rewrite Hm. split; [done|]. destruct users; simpl; eauto.
  - unfold pickup_effect. destruct (mapLoaded v) eqn:Hl; [|by rewrite Hl].
    destruct (map_current v) as [c|] eqn:Hm, (truthy (Some loc)), found;
      simpl; rewrite ?Hl, ?Hm; eauto.
Qed.

Lemma view_keeps_markers_ok es :
  (markers_ok (view_run es initial_view) ∧ removed_ok (view_run es initial_view)).
Proof.
  assert (Hgen : ∀ v0, markers_ok v0 ∧ removed_ok v0 →
            markers_ok (view_run es v0) ∧ removed_ok (view_run es v0)).
  { induction es as [|e es IH]; intros v0 Hok; [done|].
    cbn [view_run foldl]. apply IH. by apply view_ok_step. }
  apply Hgen. split; [apply markers_ok_initial|].
  split; [|split]; simpl; [by intros i Hi; apply elem_of_nil in Hi| |constructor].
  intros k mk. by rewrite lookup_empty.
Qed.

(** X12: over the whole life of the view (the map is made, loads, the
    marker effect and the pickup effect run any number of times) the
    registered markers are distinct objects, a marker that was removed is
    never registered or removed again, and no marker is registered before
    the map is there and has loaded. *)
Theorem view_keeps_markers_sound es :
  let v := view_run es initial_view in
  markers_ok v ∧ removed_ok v ∧
  (markersRef v ≠ ∅ → mapLoaded v = true ∧ is_Some (map_current v)).
Proof.
  assert (Hgen : ∀ v0,
    (markers_ok v0 ∧ removed_ok v0) ∧
    (markersRef v0 ≠ ∅ → mapLoaded v0 = true ∧ is_Some (map_current v0)) →
    (markers_ok (view_run es v0) ∧ removed_ok (view_run es v0)) ∧
    (markersRef (view_run es v0) ≠ ∅ →
       mapLoaded (view_run es v0) = true ∧ is_Some (map_current (view_run es v0)))).
  { induction es as [|e es IH]; intros v0 [Hok Hl]; [done|].
    cbn [view_run foldl]. apply IH. split; [by apply view_ok_step|].
    by apply loaded_before_markers_step. }
  intros v. destruct (Hgen initial_view) as [[? ?] ?]; [|done].
  split; [split; [apply markers_ok_initial|]|done].
  split; [|split]; simpl; [by intros i Hi; apply elem_of_nil in Hi| |constructor].
  intros k mk. by rewrite lookup_empty.
Qed.

Lemma out_of_reach_place v u i : out_of_reach i v → out_of_reach i (place v u).
Proof.
  intros (Hlt & Hrem & Hreg). unfold out_of_reach, place.
  destruct (markersRef v !! TrackedUser.user_id u) as [mk0|] eqn:Hk0; simpl.
  - split; [done|]. split; [done|]. intros k mk. rewrite lookup_insert. case_decide.
    + intros [= <-]. simpl. eauto.
    + eauto.
  - split; [lia|]. split; [done|]. intros k mk. rewrite lookup_insert. case_decide.
    + intros [= <-]. simpl. lia.
    + eauto.
Qed.

Lemma out_of_reach_prune users v k0 i :
  out_of_reach i v → out_of_reach i (prune users v k0).
Proof.
  intros (Hlt & Hrem & Hreg). unfold out_of_reach, prune.
  destruct (find_user k0 users); [done|].
  destruct (markersRef v !! k0) as [mk0|] eqn:Hk0; [|done]. simpl.
  split; [done|]. split.
  - rewrite elem_of_app, list_elem_of_singleton. intros [?| ->]; [done|].
    by apply (Hreg k0 mk0).
  - intros k mk. rewrite lookup_delete_Some. intros [_ ?]. eauto.
Qed.

Lemma out_of_reach_step v e i : out_of_reach i v → out_of_reach i (view_step v e).
Proof.
  intros Hinv. destruct e as [| |users|loc found]; cbn [view_step].
  - unfold init_map. by destruct (map_current v).
  - done.
  - unfold markers_effect. destruct (mapLoaded v); [|done].
    destruct (map_current v); [|done]. unfold reconcile. cbv zeta.
    assert (H1 : out_of_reach i (foldl place v users)).
    { revert v Hinv. induction users as [|u users IH]; intros v Hinv; [done|].
      cbn [foldl]. apply IH. by apply out_of_reach_place. }
    assert (H2 : ∀ ks v1, out_of_reach i v1 → out_of_reach i (foldl (prune users) v1 ks)).
    { induction ks as [|k0 ks IH]; intros v1 Hv1; [done|].
      cbn [foldl]. apply IH. by apply out_of_reach_prune. }
    specialize (H2 (marker_keys (foldl place v users)) _ H1). by destruct users.
  - unfold pickup_effect. destruct (mapLoaded v); [|done].
    destruct (map_current v), (truthy (Some loc)), found; try done.
    destruct Hinv as (Hlt & Hrem & Hreg). unfold out_of_reach. simpl. split; [lia|done].
Qed.

(** X13: once the pickup effect has built its marker, no run of the marker
    effect ever removes it or moves it: the marker is never among those
    removed and never registered in [markersRef.current], whatever tracked
    users come and go afterwards. *)
Theorem pickup_marker_is_never_removed es pickupLocation found es' :
  let v := view_run es initial_view in
  let v1 := pickup_effect pickupLocation found v in
  created v1 = S (created v) →
  out_of_reach (created v) (view_run es' v1).
Proof.
  intros v v1 Hbuilt.
  destruct (view_keeps_markers_ok es) as ([Hlt _] & (Hrem & _ & _)). fold v in Hlt, Hrem.
  assert (Hstart : out_of_reach (created v) v1).
  { split; [lia|].
    assert (Hsame : removed v1 = removed v ∧ markersRef v1 = markersRef v).
    { subst v1. unfold pickup_effect. destruct (mapLoaded v); [|done].
      by destruct (map_current v), (truthy (Some pickupLocation)), found. }
    destruct Hsame as [-> ->]. split.
    - intros Hin. apply Hrem in Hin. lia.
    - intros k mk Hk. apply Hlt in Hk. lia. }
  revert Hstart. generalize v1. generalize (created v). clear.
  induction es' as [|e es' IH]; intros i v1 Hstart; [done|].
  cbn [view_run foldl]. apply IH. by apply out_of_reach_step.
Qed.

End view_facts.

(** ** From the table to the map *)

Section shown_facts.
Implicit Types (w : world) (amb : ambient) (v : view).

Lemma reconcile_size users v :
  NoDup (user_ids users) → size (markersRef (reconcile users v)) = length users.
Proof.
  intros Hnd. rewrite <- (size_dom (D := gset string)).
  assert (Hdom : dom (markersRef (reconcile users v)) = list_to_set (user_ids users)).
  { apply set_eq. intros k. rewrite elem_of_dom, elem_of_list_to_set.
    apply reconcile_is_Some. }
  rewrite Hdom, size_list_to_set by done. unfold user_ids. apply length_fmap.
Qed.

(** X14: when the table has one row per (user, session) pair and the map
    has loaded, a fetch that succeeds, the render and the marker effect that
    follow leave as many markers as the badge counts participants online,
    one per row of the session, each at the longitude and latitude of its
    row. *)
Theorem markers_show_the_session m amb w v :
  request_error amb = None → Store.unique_keys (live_locations w) →
  mapLoaded v = true → is_Some (map_current v) →
  let w' := render (fetchLocations m amb w) in
  let v' := markers_effect (trackedUsers (rendered w')) v in
  size (markersRef v') = online w' ∧
  online w' = length (Store.select m (live_locations w)) ∧
  (∀ r, r ∈ Store.select m (live_locations w) →
     ∃ mk, markersRef v' !! Row.user_id r = Some mk ∧
           lngLat mk = (Row.longitude r, Row.latitude r)).
Proof.
  intros Hok Huniq Hl [c Hc] w' v'.
  assert (Hus : trackedUsers (rendered w')
                = TrackedUser.of_row <$> Store.select m (live_locations w)).
  { subst w'. destruct (render_hook (fetchLocations m amb w)) as [-> _].
    by rewrite (fetchLocations_succeeded m amb w Hok). }
  assert (Hnd : NoDup (user_ids (trackedUsers (rendered w')))).
  { rewrite Hus. unfold user_ids. rewrite <- list_fmap_compose.
    by apply selected_user_ids_NoDup. }
  assert (Hv' : v' = reconcile (trackedUsers (rendered w')) v).
  { subst v'. unfold markers_effect. by rewrite Hl, Hc. }
  unfold online. rewrite Hv'. split; [by apply reconcile_size|].
  split; [rewrite Hus; apply length_fmap|].
  intros r Hr.
  assert (Hin : TrackedUser.of_row r ∈ trackedUsers (rendered w')).
  { rewrite Hus. apply list_elem_of_fmap. eauto. }
  destruct (reconcile_settled (trackedUsers (rendered w')) v (Row.user_id r))
    as (mk & Hmk & Hpos).
  { apply list_elem_of_fmap. exists (TrackedUser.of_row r). by split. }
  exists mk. split; [done|]. rewrite (Hpos (0%float, 0%float)).
  by rewrite (final_position_distinct _ (TrackedUser.of_row r) _ Hnd Hin).
Qed.

End shown_facts.

(** ** The further properties at work *)

Lemma hook_touches_own_row_only_witness :
  ∃ uid, auth_user as_U1 = Some uid ∧ own_row uid sample_U1.
Proof.
  destruct (hook_touches_own_row_only (Some "M1") (to_location fix_2) as_U1 shared_session)
    as (_ & _ & Hstopped & _).
  apply (Hstopped sample_U1).
  - by left.
  - assert (Hleft : live_locations (stopTracking (Some "M1") as_U1 shared_session)
                    = [sample_U2]) by (vm_compute; reflexivity).
    rewrite Hleft. intros Hin. apply list_elem_of_singleton in Hin. discriminate Hin.
Defined.


Lemma publish_then_stop_restores_witness :
  live_locations
    (stopTracking (Some "M1") as_U1_later
       (updateLocation (Some "M1") (to_location fix_1) as_U1 (initial_world true [sample_U2])))
  = [sample_U2].
Proof.
  destruct (publish_then_stop_restores (Some "M1") (to_location fix_1) as_U1 as_U1_later
              (initial_world true [sample_U2]) "U1" "M1"
              eq_refl eq_refl eq_refl eq_refl eq_refl) as [_ Hback].
  apply Hback. reflexivity.
Defined.

Lemma position_failures_are_not_fatal_witness :
  let k := {| watch_id := 1; watch_matchId := Some "M1"; watch_options := tracking_options |} in
  currentLocation (state (on_position k fix_1 as_U1_offline sharing))
    = Some (to_location fix_1) ∧
  live_locations (on_position k fix_1 as_U1_offline sharing) = live_locations sharing.
Proof.
  intros k.
  destruct (position_failures_are_not_fatal k fix_1 as_U1_offline sharing 1 "Timeout expired")
    as [(Hloc & _ & _ & _ & _ & Htbl) _].
  split; [exact Hloc|]. apply Htbl. right. discriminate.
Defined.

Lemma component_keeps_one_watch_witness :
  let w := ui_run "M1" [Click as_U1; Fix 1 fix_1 as_U1; Click as_U1_later]
             (mounted "M1" as_U1 true [sample_U2]) in
  watches (geolocation w) = [] ∧ currentLocation (rendered w) = None.
Proof.
  intros w.
  destruct (component_keeps_one_watch "M1" as_U1 true [sample_U2]
              [Click as_U1; Fix 1 fix_1 as_U1; Click as_U1_later])
    as (_ & _ & _ & Hflag & Hshown).
  fold w in Hflag, Hshown. split; [|apply Hshown; reflexivity].
  destruct (watches (geolocation w)) as [|k ks] eqn:Hws; [reflexivity|].
  assert (Htrue : isTracking (rendered w) = true) by (apply Hflag; discriminate).
  discriminate Htrue.
Defined.

Lemma fetched_users_are_the_session_rows_witness :
  NoDup (user_ids (trackedUsers (state (fetchLocations "M1" as_U1 shared_session)))) ∧
  length (trackedUsers (state (fetchLocations "M1" as_U1 shared_session))) = 2%nat.
Proof.
  destruct (fetched_users_are_the_session_rows "M1" as_U1 shared_session eq_refl)
    as (_ & Hlen & Hnd).
  split; [|exact Hlen]. apply Hnd.
  intros u m. unfold Store.samples. simpl.
  rewrite !filter_cons, filter_nil.
  destruct (decide (Store.key_is u m sample_U1)) as [[Hu _]|];
    destruct (decide (Store.key_is u m sample_U2)) as [[Hu' _]|]; simpl; try lia.
  simpl in Hu, Hu'. congruence.
Defined.

Lemma reconcile_puts_markers_at_positions_witness :
  ∃ mk, markersRef (reconcile [tracked_A_moved; tracked_C] view_A_B) !! "A" = Some mk ∧
        lngLat mk = (20.125%float, 10.25%float).
Proof.
  destruct (reconcile_puts_markers_at_positions [tracked_A_moved; tracked_C] view_A_B
              tracked_A_moved) as (mk & Hmk & _ & Hpos).
  - by left.
  - exists mk. split; [exact Hmk|]. apply Hpos.
    unfold user_ids. simpl. apply NoDup_cons. split.
    + intros Hin. apply list_elem_of_singleton in Hin. discriminate Hin.
    + apply NoDup_singleton.
Defined.

Lemma reconcile_keeps_marker_and_popup_witness :
  ∃ mk', markersRef (reconcile [tracked_A_moved; tracked_C] view_A_B) !! "A" = Some mk' ∧
         marker_id mk' = 0%nat ∧
         popup_updated_at mk' = TrackedUser.updated_at tracked_A.
Proof.
  assert (Hin : "A" ∈ user_ids [tracked_A_moved; tracked_C]) by (by left).
  exact (reconcile_keeps_marker_and_popup [tracked_A_moved; tracked_C] view_A_B "A" Hin).
Defined.

Lemma reconcile_churn_is_minimal_witness :
  created (reconcile [tracked_A_moved; tracked_C] view_A_B) = 3%nat ∧
  (1%nat ∈ removed (reconcile [tracked_A_moved; tracked_C] view_A_B)).
Proof.
  destruct (reconcile_churn_is_minimal [tracked_A_moved; tracked_C] view_A_B)
    as [Hcreated Hremoved].
  split.
  - rewrite Hcreated. vm_compute. reflexivity.
  - apply Hremoved. right. exists "B", marker_B. split; [reflexivity|].
    split; [|reflexivity]. unfold user_ids. simpl. intros Hin.
    apply elem_of_cons in Hin as [Hin|Hin]; [discriminate Hin|].
    apply list_elem_of_singleton in Hin. discriminate Hin.
Defined.

Lemma view_keeps_markers_sound_witness :
  let v := view_run [MapInit; MapLoad; Tracked [tracked_A; tracked_B];
                     Tracked [tracked_A_moved; tracked_C]] initial_view in
  mapLoaded v = true ∧ is_Some (map_current v).
Proof.
  intros v.
  destruct (view_keeps_markers_sound [MapInit; MapLoad; Tracked [tracked_A; tracked_B];
                                      Tracked [tracked_A_moved; tracked_C]])
    as (_ & _ & Hloaded).
  apply Hloaded. intros Hempty.
  pose proof (f_equal (λ markers : gmap string Marker, markers !! "C") Hempty) as Hlookup.
  vm_compute in Hlookup. discriminate Hlookup.
Defined.

Lemma pickup_marker_is_never_removed_witness :
  out_of_reach 2
    (view_run [Tracked [tracked_C]; Tracked []]
       (pickup_effect "12 Market Street" (Some (20.25%float, 10.5%float))
          (view_run [MapInit; MapLoad; Tracked [tracked_A; tracked_B]] initial_view))).
Proof.
  exact (pickup_marker_is_never_removed
           [MapInit; MapLoad; Tracked [tracked_A; tracked_B]]
           "12 Market Street" (Some (20.25%float, 10.5%float))
           [Tracked [tracked_C]; Tracked []] eq_refl).
Defined.

Lemma markers_show_the_session_witness :
  let w' := render (fetchLocations "M1" as_U1 shared_session) in
  let v' := markers_effect (trackedUsers (rendered w')) loaded_view in
  size (markersRef v') = 2%nat ∧
  ∃ mk, markersRef v' !! "U2" = Some mk ∧ lngLat mk = (20.5%float, 10.5%float).
Proof.
  intros w' v'.
  destruct (markers_show_the_session "M1" as_U1 shared_session loaded_view) as (Hsize & _ & Hat).
  - reflexivity.
  - intros u m. unfold Store.samples. simpl.
    rewrite !filter_cons, filter_nil.
    destruct (decide (Store.key_is u m sample_U1)) as [[Hu _]|];
      destruct (decide (Store.key_is u m sample_U2)) as [[Hu' _]|]; simpl; try lia.
    simpl in Hu, Hu'. congruence.
  - reflexivity.
  - vm_compute. eexists. reflexivity.
  - split; [exact Hsize|]. apply (Hat sample_U2). right. by left.
Defined.
